(** * Hill-type muscle model (H_muscle.py): a shallow embedding and its properties

    The program computes with numpy float64 scalars and arrays and with
    scipy.interpolate.interp1d.  The embedding idealises float64 as follows:

    - a finite float is a real number ([R]); rounding, overflow and signed
      zeros are not represented;
    - the non-finite floats that numpy produces by dividing by zero (and then
      propagates) are kept: [Inf] and [NaN];
    - Python exceptions are kept apart from NaN: an exception aborts the
      call ([Raise]), NaN is an ordinary value that flows on.

    The two breakpoint tables are decimal literals; they are rationals ([Q]),
    the spline coefficients are computed from them in [Q], and the spline is
    evaluated at a real argument. *)

From Stdlib Require Import QArith Qreals Reals Lra Lia List Bool Sorted.
Import ListNotations.
From Stdlib Require String.
Import String.StringSyntax.
Delimit Scope string_scope with string.
Local Open Scope R_scope.

(* ================================================================= *)
(** ** numpy scalars *)

Inductive npfloat : Type :=
| Fin (r : R)              (* a finite value *)
| Inf (negative : bool)    (* +inf (false) or -inf (true) *)
| NaN.

Definition Rsign_neg (r : R) : bool := if Rlt_dec r 0 then true else false.

Definition np_add (a b : npfloat) : npfloat :=
  match a, b with
  | NaN, _ | _, NaN => NaN
  | Fin x, Fin y => Fin (x + y)
  | Fin _, Inf s | Inf s, Fin _ => Inf s
  | Inf s, Inf s' => if Bool.eqb s s' then Inf s else NaN
  end.

Definition np_neg (a : npfloat) : npfloat :=
  match a with
  | Fin x => Fin (- x)
  | Inf s => Inf (negb s)
  | NaN => NaN
  end.

Definition np_sub (a b : npfloat) : npfloat :=
  match a, b with
  | Fin x, Fin y => Fin (x - y)
  | _, _ => np_add a (np_neg b)
  end.

Definition np_mul (a b : npfloat) : npfloat :=
  match a, b with
  | NaN, _ | _, NaN => NaN
  | Fin x, Fin y => Fin (x * y)
  | Fin x, Inf s | Inf s, Fin x =>
      if Req_dec_T x 0 then NaN else Inf (xorb s (Rsign_neg x))
  | Inf s, Inf s' => Inf (xorb s s')
  end.

(** True division of numpy scalars: a zero divisor gives nan (0/0) or an
    infinity, with a RuntimeWarning and no exception. *)
Definition np_div (a b : npfloat) : npfloat :=
  match a, b with
  | NaN, _ | _, NaN => NaN
  | Fin x, Fin y =>
      if Req_dec_T y 0 then
        if Req_dec_T x 0 then NaN else Inf (Rsign_neg x)
      else Fin (x / y)
  | Fin _, Inf _ => Fin 0
  | Inf s, Fin y => Inf (xorb s (Rsign_neg y))
  | Inf _, Inf _ => NaN
  end.

Definition np_exp (a : npfloat) : npfloat :=
  match a with
  | Fin x => Fin (exp x)
  | Inf false => Inf false
  | Inf true => Fin 0
  | NaN => NaN
  end.

Definition np_sin (a : npfloat) : npfloat :=
  match a with
  | Fin x => Fin (sin x)
  | _ => NaN
  end.

Definition np_sqrt (a : npfloat) : npfloat :=
  match a with
  | Fin x => if Rlt_dec x 0 then NaN else Fin (sqrt x)
  | Inf false => Inf false
  | _ => NaN
  end.

(** [x**2] *)
Definition np_sq (a : npfloat) : npfloat :=
  match a with
  | Fin x => Fin (x ^ 2)
  | Inf _ => Inf false
  | NaN => NaN
  end.

(* ================================================================= *)
(** ** Exceptions *)

Inductive exception : Type := ValueError | LinAlgError.

Inductive exn (T : Type) : Type :=
| Ret (v : T)
| Raise (e : exception).
Arguments Ret {T} v.
Arguments Raise {T} e.

Definition bind {T U : Type} (m : exn T) (k : T -> exn U) : exn U :=
  match m with
  | Ret v => k v
  | Raise e => Raise e
  end.

Notation "x <- m ;; k" := (bind m (fun x => k))
  (at level 61, m at next level, right associativity).

(* ================================================================= *)
(** ** Number structures the spline code is run on

    The B-spline routines are written once, over any carrier with the
    arithmetic they use: [Q] (to build the coefficients and to evaluate at
    rational points), [R] (the float64 idealisation) and polynomials over [Q]
    (to read off the cubic piece of an interval). *)

Class Num (F : Type) : Type := {
  ofQ : Q -> F;
  nadd : F -> F -> F;
  nsub : F -> F -> F;
  nmul : F -> F -> F;
  ndiv : F -> F -> F
}.

Class NumLe (F : Type) : Type := {
  nle : F -> F -> bool
}.

#[export] Instance NumQ : Num Q := {|
  ofQ := fun q => q;
  nadd := fun a b => Qred (a + b)%Q;
  nsub := fun a b => Qred (a - b)%Q;
  nmul := fun a b => Qred (a * b)%Q;
  ndiv := fun a b => Qred (a / b)%Q
|}.

#[export] Instance NumLeQ : NumLe Q := {| nle := Qle_bool |}.

Definition Rleb (a b : R) : bool := if Rle_dec a b then true else false.

#[export] Instance NumR : Num R := {|
  ofQ := Q2R;
  nadd := Rplus;
  nsub := Rminus;
  nmul := Rmult;
  ndiv := Rdiv
|}.

#[export] Instance NumLeR : NumLe R := {| nle := Rleb |}.

(** Polynomials over [Q], lowest coefficient first. *)
Definition poly : Type := list Q.

Fixpoint padd (a b : poly) : poly :=
  match a, b with
  | [], _ => b
  | _, [] => a
  | x :: a', y :: b' => Qred (x + y)%Q :: padd a' b'
  end.

Definition pscale (q : Q) (a : poly) : poly := map (fun x => Qred (q * x)%Q) a.

Definition psub (a b : poly) : poly := padd a (pscale (-1)%Q b).

Fixpoint pmul (a b : poly) : poly :=
  match a with
  | [] => []
  | x :: a' => padd (pscale x b) (0%Q :: pmul a' b)
  end.

(** Division is only ever by a constant (a difference of knots). *)
Definition pdiv (a b : poly) : poly := pscale (/ hd 1%Q b)%Q a.

#[export] Instance NumPoly : Num poly := {|
  ofQ := fun q => [q];
  nadd := padd;
  nsub := psub;
  nmul := pmul;
  ndiv := pdiv
|}.

Fixpoint peval (p : poly) (x : R) : R :=
  match p with
  | [] => 0
  | c :: p' => Q2R c + x * peval p' x
  end.

Definition pX : poly := [0; 1]%Q.

(* ================================================================= *)
(** ** scipy.interpolate: cubic B-spline interpolation

    [interp1d(x, y, kind='cubic')] keeps the sorted data and the B-spline
    [make_interp_spline(x, y, k=3)] (scipy 0.19 and later): knots with the
    not-a-knot end condition, coefficients solving the collocation system,
    evaluation by de Boor's recurrence.  Calling the object outside
    [x[0], x[-1]] raises ValueError ([bounds_error] is on unless
    [fill_value='extrapolate']). *)

Section BSplineEval.
Context {F : Type} `{Num F}.

Definition knot (t : list Q) (i : nat) : Q := nth i t 0%Q.

(** The loop [while xval >= t[l] and l != n: l += 1], on the knots
    [t[k+1 .. n-1]] it walks over; the result is the loop's [l - 1]. *)
Fixpoint find_interval_from `{NumLe F} (ts : list Q) (x : F) (l : nat) : nat :=
  match ts with
  | [] => l
  | tl :: ts' =>
      if nle (ofQ tl) x then find_interval_from ts' x (S l) else l
  end.

Definition find_interval `{NumLe F} (t : list Q) (k : nat) (x : F) : nat :=
  let n := (length t - k - 1)%nat in
  find_interval_from (firstn (n - (k + 1)) (skipn (k + 1) t)) x k.

(** One round [j] of [_deBoor_D]: from the [j] basis values of degree
    [j-1] in [hh] to the [j+1] values of degree [j].  [prev] is the part of
    [h[n-1]] accumulated so far. *)
Fixpoint deBoor_sweep (t : list Q) (x : F) (ell j n : nat)
         (prev : F) (hh : list F) : list F :=
  match hh with
  | [] => [prev]
  | hn :: hh' =>
      let xb := knot t (ell + n) in
      let xa := knot t (ell + n - j) in
      if Qeq_bool xb xa then
        prev :: deBoor_sweep t x ell j (S n) (ofQ 0) hh'
      else
        let w := ndiv hn (ofQ (xb - xa)) in
        nadd prev (nmul w (nsub (ofQ xb) x))
          :: deBoor_sweep t x ell j (S n) (nmul w (nsub x (ofQ xa))) hh'
  end.

Fixpoint deBoor_loop (t : list Q) (x : F) (ell j rounds : nat)
         (h : list F) : list F :=
  match rounds with
  | O => h
  | S rounds' =>
      deBoor_loop t x ell (S j) rounds' (deBoor_sweep t x ell j 1 (ofQ 0) h)
  end.

(** The [k+1] B-splines of degree [k] that do not vanish on interval
    [ell], at [x]. *)
Definition deBoor_D (t : list Q) (x : F) (k ell : nat) : list F :=
  deBoor_loop t x ell 1 k [ofQ 1].

Fixpoint dot (c : list Q) (h : list F) : F :=
  match c, h with
  | ci :: c', hi :: h' => nadd (nmul (ofQ ci) hi) (dot c' h')
  | _, _ => ofQ 0
  end.

(** [sum over a of c[ell - k + a] * work[a]] on a given interval. *)
Definition spline_on (t c : list Q) (k ell : nat) (x : F) : F :=
  dot (skipn (ell - k) c) (deBoor_D t x k ell).

Definition evaluate_spline `{NumLe F} (t c : list Q) (k : nat) (x : F) : F :=
  spline_on t c k (find_interval t k x) x.
End BSplineEval.

(** [_not_a_knot(x, 3)]: the end points four times, and the data sites
    without the second and the last but one. *)
Definition not_a_knot (x : list Q) : list Q :=
  let x0 := hd 0%Q x in
  let xn := last x 0%Q in
  [x0; x0; x0; x0] ++ firstn (length x - 4) (skipn 2 x) ++ [xn; xn; xn; xn].

(** Row [i] of the collocation matrix: the basis functions at [x[i]]. *)
Definition colloc_row (t : list Q) (k n : nat) (xi : Q) : list Q :=
  let ell := find_interval t k xi in
  repeat 0%Q (ell - k) ++ deBoor_D t xi k ell ++ repeat 0%Q (n - 1 - ell).

Definition colloc (x t : list Q) (k : nat) : list (list Q) :=
  map (colloc_row t k (length x)) x.

(** Exact Gauss-Jordan elimination on the augmented rows.  (scipy calls
    LAPACK's banded LU; with exact arithmetic every elimination order gives
    the one solution of a non-singular system.) *)
Definition row_sub (r p : list Q) (f : Q) : list Q :=
  map (fun ab => Qred (fst ab - f * snd ab)) (combine r p).

Definition eliminate (col : nat) (p r : list Q) : list Q :=
  row_sub r p (nth col r 0%Q).

Fixpoint pick_pivot (col : nat) (rows : list (list Q))
  : option (list Q * list (list Q)) :=
  match rows with
  | [] => None
  | r :: rs =>
      if Qeq_bool (nth col r 0%Q) 0 then
        match pick_pivot col rs with
        | Some (p, others) => Some (p, r :: others)
        | None => None
        end
      else Some (r, rs)
  end.

Fixpoint gauss_jordan (steps col : nat) (done todo : list (list Q))
  : option (list (list Q)) :=
  match steps with
  | O => Some done
  | S steps' =>
      match pick_pivot col todo with
      | None => None
      | Some (p, others) =>
          let p' := map (fun a => Qred (a / nth col p 0%Q)) p in
          gauss_jordan steps' (S col)
            (map (eliminate col p') done ++ [p'])
            (map (eliminate col p') others)
      end
  end.

Definition solve (M : list (list Q)) (y : list Q) : option (list Q) :=
  let n := length y in
  match gauss_jordan n 0 [] (map (fun rb => fst rb ++ [snd rb]) (combine M y)) with
  | Some rows => Some (map (fun r => nth n r 0%Q) rows)
  | None => None
  end.

Record BSpline : Type := { bs_t : list Q; bs_c : list Q; bs_k : nat }.

Fixpoint strictly_increasing (x : list Q) : bool :=
  match x with
  | a :: ((b :: _) as x') => negb (Qle_bool b a) && strictly_increasing x'
  | _ => true
  end.

Definition make_interp_spline (x y : list Q) : exn BSpline :=
  if negb (strictly_increasing x) then Raise ValueError
  else
    let t := not_a_knot x in
    match solve (colloc x t 3) y with
    | Some c => Ret {| bs_t := t; bs_c := c; bs_k := 3 |}
    | None => Raise LinAlgError
    end.

Definition BSpline_call {F : Type} `{Num F} `{NumLe F} (s : BSpline) (x : F) : F :=
  evaluate_spline (bs_t s) (bs_c s) (bs_k s) x.

(** [np.argsort(x, kind='mergesort')]: a stable sort of the pairs by [x]. *)
Fixpoint insert_by_x (p : Q * Q) (l : list (Q * Q)) : list (Q * Q) :=
  match l with
  | [] => [p]
  | q :: l' =>
      if Qle_bool (fst p) (fst q) then p :: l else q :: insert_by_x p l'
  end.

Definition sort_by_x (l : list (Q * Q)) : list (Q * Q) :=
  fold_right insert_by_x [] l.

Record interp1d_obj : Type := {
  i_x : list Q;
  i_y : list Q;
  i_spline : BSpline
}.

(** [interpolate.interp1d(x, y, kind='cubic')] *)
Definition interp1d_cubic (x y : list Q) : exn interp1d_obj :=
  if negb (Nat.eqb (length x) (length y)) then Raise ValueError
  else
    let xy := sort_by_x (combine x y) in
    let xs := map fst xy in
    let ys := map snd xy in
    if Nat.ltb (length xs) 4 then Raise ValueError
    else
      s <- make_interp_spline xs ys ;;
      Ret {| i_x := xs; i_y := ys; i_spline := s |}.

(** Calling the interpolant on a scalar.  The bounds check compares with
    [x[0]] and [x[-1]]; nan compares false both ways and comes back as nan. *)
Definition interp1d_call (f : interp1d_obj) (x_new : npfloat) : exn npfloat :=
  match x_new with
  | NaN => Ret NaN
  | Inf _ => Raise ValueError
  | Fin r =>
      if Rlt_dec r (Q2R (hd 0%Q (i_x f))) then Raise ValueError
      else if Rlt_dec (Q2R (last (i_x f) 0%Q)) r then Raise ValueError
      else Ret (Fin (BSpline_call (i_spline f) r))
  end.

(* ================================================================= *)
(** ** class Hill_type_muscle *)

Record Hill_type_muscle : Type := {
  F_0 : R;     (* muscle maximal isometric force *)
  l_0 : R;     (* muscle optimal fibre length *)
  l_t : R;     (* tendon length, constant *)
  phi_0 : R;   (* pennation angle *)
  A : R        (* shape factor *)
}.

(** The constructor's default arguments. *)
Definition default_muscle : Hill_type_muscle :=
  {| F_0 := 3549; l_0 := 0.05; l_t := 0.25; phi_0 := 0.2; A := -0.1 |}.

Definition active_x : list Q :=
  [-5; 0; 0.401; 0.402; 0.4035; 0.52725; 0.62875; 0.71875; 0.86125; 1.045;
   1.2175; 1.43875; 1.61875; 1.62; 1.621; 2.2; 5]%Q.
Definition active_y : list Q :=
  [0; 0; 0; 0; 0; 0.226667; 0.636667; 0.856667; 0.95; 0.993333; 0.77;
   0.246667; 0; 0; 0; 0; 0]%Q.

Definition passive_x : list Q :=
  [-5; 0.998; 0.999; 1; 1.1; 1.2; 1.3; 1.4; 1.5; 1.6; 1.601; 1.602; 5]%Q.
Definition passive_y : list Q :=
  [0; 0; 0; 0; 0.035; 0.12; 0.26; 0.55; 1.17; 2; 2; 2; 2]%Q.

Section Methods.
Variable self : Hill_type_muscle.

Definition cal_muscle_activation (u : npfloat) : npfloat :=
  np_div (np_sub (np_exp (np_mul (Fin (A self)) u)) (Fin 1))
         (np_sub (np_exp (Fin (A self))) (Fin 1)).

Definition cal_muscle_fiber_length (l_mt : npfloat) : npfloat :=
  np_sqrt (np_add (np_sq (np_mul (Fin (l_0 self)) (np_sin (Fin (phi_0 self)))))
                  (np_sq (np_sub l_mt (Fin (l_t self))))).

Definition cal_normalized_muscle_fiber_length (l_mt : npfloat) : npfloat :=
  let l_m := cal_muscle_fiber_length l_mt in
  np_div l_m (Fin (l_0 self)).

(** The two builders do not read [self]. *)
Definition get_active_force_length_function : exn interp1d_obj :=
  interp1d_cubic active_x active_y.

Definition get_passive_force_length_function : exn interp1d_obj :=
  interp1d_cubic passive_x passive_y.

Definition get_active_force_length_value (l_mt : npfloat) : exn npfloat :=
  f_a <- get_active_force_length_function ;;
  let l_hat := cal_normalized_muscle_fiber_length l_mt in
  interp1d_call f_a l_hat.

Definition get_passive_force_length_value (l_mt : npfloat) : exn npfloat :=
  f_p <- get_passive_force_length_function ;;
  let l_hat := cal_normalized_muscle_fiber_length l_mt in
  interp1d_call f_p l_hat.

Definition cal_active_muscle_force (l_mt u : npfloat) : exn npfloat :=
  let a := cal_muscle_activation u in
  f_am <- get_active_force_length_value l_mt ;;
  Ret (np_mul (np_mul f_am (Fin (F_0 self))) a).

Definition cal_passive_muscle_force (l_mt : npfloat) : exn npfloat :=
  f_pm <- get_passive_force_length_value l_mt ;;
  Ret (np_mul f_pm (Fin (F_0 self))).

Definition cal_muscle_fiber_force (l_mt u : npfloat) : exn npfloat :=
  let a := cal_muscle_activation u in
  F_A <- cal_active_muscle_force l_mt a ;;
  F_P <- cal_passive_muscle_force l_mt ;;
  Ret (np_add F_A F_P).

(** The same methods on an array of excitations ([u = np.linspace(0,1,200)]
    in the driver): numpy applies the scalar operations element by
    element; the force-length value stays a scalar. *)
Definition cal_muscle_activation_arr (u : list npfloat) : list npfloat :=
  map cal_muscle_activation u.

Definition cal_active_muscle_force_arr (l_mt : npfloat) (u : list npfloat)
  : exn (list npfloat) :=
  let a := cal_muscle_activation_arr u in
  f_am <- get_active_force_length_value l_mt ;;
  Ret (map (np_mul (np_mul f_am (Fin (F_0 self)))) a).
End Methods.

(** [np.linspace(0, 1, n)] for [n >= 2]: the points [i/(n-1)]. *)
Definition linspace01 (n : nat) : list R :=
  map (fun i => INR i / INR (n - 1)) (seq 0 n).

(** The two interpolants, built once. *)
Definition active_curve : interp1d_obj :=
  Eval vm_compute in
    match interp1d_cubic active_x active_y with
    | Ret f => f
    | Raise _ => {| i_x := []; i_y := []; i_spline := {| bs_t := []; bs_c := []; bs_k := 3 |} |}
    end.

Definition passive_curve : interp1d_obj :=
  Eval vm_compute in
    match interp1d_cubic passive_x passive_y with
    | Ret f => f
    | Raise _ => {| i_x := []; i_y := []; i_spline := {| bs_t := []; bs_c := []; bs_k := 3 |} |}
    end.

(** "In the curve domain": the normalised fibre length is a finite number
    inside the tabulated range [-5, 5]. *)
Definition in_curve_domain (self : Hill_type_muscle) (l_mt : R) : Prop :=
  exists l_hat : R,
    cal_normalized_muscle_fiber_length self (Fin l_mt) = Fin l_hat /\
    -5 <= l_hat <= 5.

(** "Outside the tabulated range": the normalised fibre length is below -5
    or above 5, infinities included (nan is neither). *)
Definition out_of_curve_domain (self : Hill_type_muscle) (l_mt : R) : Prop :=
  match cal_normalized_muscle_fiber_length self (Fin l_mt) with
  | Fin l_hat => l_hat < -5 \/ 5 < l_hat
  | Inf _ => True
  | NaN => False
  end.

(** Non-decreasing sequences of reals. *)
Definition nondecreasing (l : list R) : Prop := Sorted Rle l.

(** The two curves as functions of a real normalised length. *)
Definition active_curve_value (x : R) : R := BSpline_call (i_spline active_curve) x.
Definition passive_curve_value (x : R) : R := BSpline_call (i_spline passive_curve) x.

(** A check, run in [Q], that the curve [f] takes the value [snd xy] at the
    in-range point [fst xy]. *)
Definition takes_value (f : interp1d_obj) (xy : Q * Q) : bool :=
  Qle_bool (hd 0%Q (i_x f)) (fst xy)
  && Qle_bool (fst xy) (last (i_x f) 0%Q)
  && Qeq_bool (BSpline_call (i_spline f) (fst xy)) (snd xy).

(** The breakpoints on the plateaus of the two tables. *)
Definition active_zero_breakpoints : list Q :=
  filter (fun x => Qle_bool x 0.4035 || Qle_bool 1.61875 x) active_x.
Definition passive_zero_breakpoints : list Q :=
  filter (fun x => Qle_bool x 1) passive_x.
Definition passive_two_breakpoints : list Q :=
  filter (fun x => Qle_bool 1.6 x) passive_x.

(** The cubic piece of the active curve on its last knot interval,
    [1.621, 5], read off by running the evaluation on the polynomial [X]. *)
Definition active_last_piece : poly :=
  Eval vm_compute in
    spline_on (bs_t (i_spline active_curve)) (bs_c (i_spline active_curve)) 3 16 pX.

(** Its leading coefficient, and the cubic with that leading coefficient
    and the roots 1.621, 2.2 and 5. *)
Definition active_last_lead : Q := nth 3 active_last_piece 0%Q.

Definition active_last_factored : poly :=
  pmul [active_last_lead]
       (pmul [-1.621; 1]%Q (pmul [-2.2; 1]%Q [-5; 1]%Q)).

Definition poly_eqb (a b : poly) : bool :=
  Nat.eqb (length a) (length b)
  && forallb (fun ab => Qeq_bool (fst ab) (snd ab)) (combine a b).

(** [Fs] is the sequence of active forces of the excitations [us] at the
    length [l_mt], one scalar call each. *)
Definition active_forces (self : Hill_type_muscle) (l_mt : R)
           (us Fs : list R) : Prop :=
  Forall2 (fun u F => cal_active_muscle_force self (Fin l_mt) (Fin u) = Ret (Fin F))
          us Fs.

(** The activation formula on reals. *)
Definition activation_formula (a u : R) : R := (exp (a * u) - 1) / (exp a - 1).

(** A muscle whose fibres are in line with the tendon (no pennation). *)
Definition straight_muscle : Hill_type_muscle :=
  {| F_0 := 3549; l_0 := 0.05; l_t := 0.25; phi_0 := 0; A := -0.1 |}.

(** A muscle with the default values and the shape factor set to zero. *)
Definition flat_muscle : Hill_type_muscle :=
  {| F_0 := 3549; l_0 := 0.05; l_t := 0.25; phi_0 := 0.2; A := 0 |}.

(** A muscle with the default values and the pennation angle mirrored. *)
Definition mirrored_muscle : Hill_type_muscle :=
  {| F_0 := 3549; l_0 := 0.05; l_t := 0.25; phi_0 := -0.2; A := -0.1 |}.

(* ================================================================= *)
(** ** Further definitions: array calls, curve pieces and bounds *)

(** [cal_muscle_fiber_force] on an array of excitations, as the driver calls
    it: the activation and the active force are arrays, the passive force
    is a scalar that numpy adds to every element. *)
Definition cal_muscle_fiber_force_arr (self : Hill_type_muscle)
           (l_mt : npfloat) (u : list npfloat) : exn (list npfloat) :=
  let a := cal_muscle_activation_arr self u in
  F_A <- cal_active_muscle_force_arr self l_mt a ;;
  F_P <- cal_passive_muscle_force self l_mt ;;
  Ret (map (fun F_Ai => np_add F_Ai F_P) F_A).

(** [Fs] is the sequence of total forces of the excitations [us] at the
    length [l_mt], one scalar call each. *)
Definition total_forces (self : Hill_type_muscle) (l_mt : R)
           (us Fs : list R) : Prop :=
  Forall2 (fun u F => cal_muscle_fiber_force self (Fin l_mt) (Fin u) = Ret (Fin F))
          us Fs.

(** Non-increasing sequences of reals. *)
Definition nonincreasing (l : list R) : Prop := Sorted Rge l.

(** A muscle with a positive shape factor. *)
Definition convex_muscle : Hill_type_muscle :=
  {| F_0 := 3549; l_0 := 0.05; l_t := 0.25; phi_0 := 0.2; A := 2 |}.

(** A muscle with the default values and the optimal fibre length set to
    zero. *)
Definition degenerate_muscle : Hill_type_muscle :=
  {| F_0 := 3549; l_0 := 0; l_t := 0.25; phi_0 := 0.2; A := -0.1 |}.

(** The knots [t[k+1 .. n-1]] that the interval search walks over. *)
Definition interior_knots (t : list Q) (k : nat) : list Q :=
  firstn (length t - k - 1 - (k + 1)) (skipn (k + 1) t).

(** The cubic that a curve follows on its [i]-th knot interval (counted
    from 0), read off by running the evaluation on the polynomial [X]. *)
Definition curve_piece (f : interp1d_obj) (i : nat) : poly :=
  spline_on (bs_t (i_spline f)) (bs_c (i_spline f)) (bs_k (i_spline f))
            (bs_k (i_spline f) + i) pX.

(** [k * (X - r1) * (X - r2) * (X - r3)] *)
Definition cubic_with_roots (k r1 r2 r3 : Q) : poly :=
  pmul [k] (pmul [(- r1)%Q; 1%Q] (pmul [(- r2)%Q; 1%Q] [(- r3)%Q; 1%Q])).

(** The outer pieces of the two curves: the first and the last knot
    interval each hold three breakpoints with the same ordinate. *)
Definition active_first_piece : poly := Eval vm_compute in curve_piece active_curve 0.
Definition passive_first_piece : poly := Eval vm_compute in curve_piece passive_curve 0.
Definition passive_last_piece : poly := Eval vm_compute in curve_piece passive_curve 9.

Definition active_first_lead : Q := nth 3 active_first_piece 0%Q.
Definition passive_first_lead : Q := nth 3 passive_first_piece 0%Q.
Definition passive_last_lead : Q := nth 3 passive_last_piece 0%Q.

(** [p] composed with [X + a]: the polynomial [h |-> p(a + h)]. *)
Fixpoint pshift (p : poly) (a : Q) : poly :=
  match p with
  | [] => []
  | c :: p' => padd [c] (pmul [a; 1%Q] (pshift p' a))
  end.

Definition qmin (a b : Q) : Q := if Qle_bool a b then a else b.
Definition qmax (a b : Q) : Q := if Qle_bool a b then b else a.

(** Bounds of [p(h)] for [0 <= h <= w], by Horner's rule on intervals. *)
Fixpoint hbounds (p : poly) (w : Q) : Q * Q :=
  match p with
  | [] => (0%Q, 0%Q)
  | c :: p' =>
      let (L, U) := hbounds p' w in
      (Qred (c + qmin 0 (w * L)), Qred (c + qmax 0 (w * U)))
  end.

(** Bounds of [p] on [lo, lo + w]. *)
Definition pbounds (p : poly) (lo w : Q) : Q * Q := hbounds (pshift p lo) w.

(** Bounds of [p] on [lo, lo + n * w], the hull of the bounds on the [n]
    consecutive intervals of width [w]. *)
Fixpoint pbounds_steps (p : poly) (lo w : Q) (n : nat) : Q * Q :=
  match n with
  | O => pbounds p lo 0
  | S n' =>
      let (L, U) := pbounds p lo w in
      match n' with
      | O => (L, U)
      | S _ =>
          let (L', U') := pbounds_steps p (Qred (lo + w)) w n' in
          (qmin L L', qmax U U')
      end
  end.

(** [p] composed with [-X]. *)
Fixpoint pflip (p : poly) : poly :=
  match p with
  | [] => []
  | c :: p' => c :: pscale (-1) (pflip p')
  end.

(** A stretch [seg_lo, seg_hi] inside the knot interval [seg_piece] of a
    curve, with the way to bound the curve on it: [seg_steps] forward steps
    from [seg_lo], or one backward step from [seg_hi]. *)
Record segment : Type := {
  seg_piece : nat;
  seg_lo : Q;
  seg_hi : Q;
  seg_steps : nat;
  seg_back : bool
}.

Definition segment_valid (f : interp1d_obj) (s : segment) : bool :=
  let ik := interior_knots (bs_t (i_spline f)) (bs_k (i_spline f)) in
  Qle_bool (seg_lo s) (seg_hi s)
  && forallb (fun a => Qle_bool a (seg_lo s)) (firstn (seg_piece s) ik)
  && Nat.ltb (seg_piece s) (length ik)
  && Qle_bool (seg_hi s) (nth (seg_piece s) ik 0%Q)
  && negb (Nat.eqb (seg_steps s) 0).

Definition segment_bounds (f : interp1d_obj) (s : segment) : Q * Q :=
  let p := curve_piece f (seg_piece s) in
  if seg_back s then
    hbounds (pflip (pshift p (seg_hi s))) (seg_hi s - seg_lo s)
  else
    pbounds_steps p (seg_lo s)
      (Qred ((seg_hi s - seg_lo s) / inject_Z (Z.of_nat (seg_steps s))))
      (seg_steps s).

(** The segments follow one another from [a] to [b], each is inside its
    knot interval, and the curve stays within [L, U] on each. *)
Fixpoint covers (f : interp1d_obj) (segs : list segment) (a b L U : Q) : bool :=
  match segs with
  | [] => false
  | s :: rest =>
      let (l, u) := segment_bounds f s in
      segment_valid f s
      && Qeq_bool (seg_lo s) a
      && Qle_bool L l
      && Qle_bool u U
      && match rest with
         | [] => Qeq_bool (seg_hi s) b
         | _ :: _ => covers f rest (seg_hi s) b L U
         end
  end.

(** Bounds of the last cubic piece on [lo, hi], with [lo] at or after the
    last interior knot. *)
Definition last_piece_within (f : interp1d_obj) (lo hi : Q) (n : nat) (L U : Q)
  : bool :=
  let ik := interior_knots (bs_t (i_spline f)) (bs_k (i_spline f)) in
  let (l, u) := pbounds_steps (curve_piece f (length ik)) lo
                  (Qred ((hi - lo) / inject_Z (Z.of_nat n))) n in
  forallb (fun a => Qle_bool a lo) ik
  && Qle_bool lo hi
  && negb (Nat.eqb n 0)
  && Qle_bool L l && Qle_bool u U.

Definition forward (i : nat) (lo hi : Q) (n : nat) : segment :=
  {| seg_piece := i; seg_lo := lo; seg_hi := hi; seg_steps := n; seg_back := false |}.

Definition backward (i : nat) (lo hi : Q) : segment :=
  {| seg_piece := i; seg_lo := lo; seg_hi := hi; seg_steps := 1; seg_back := true |}.

(** The active curve, knot interval by knot interval: from 0 up to
    0.4035, from there up to 1.61875, and from there up to the last interior
    knot 1.621. *)
Definition active_low_segments : list segment :=
  [forward 0 0 0.401 4; forward 1 0.401 0.402 1; forward 2 0.402 0.4035 1].

Definition active_middle_segments : list segment :=
  [forward 3 0.4035 0.52725 1; forward 4 0.52725 0.62875 1;
   forward 5 0.62875 0.71875 1; forward 6 0.71875 0.86125 2;
   forward 7 0.86125 1.045 8; forward 8 1.045 1.2175 1;
   forward 9 1.2175 1.43875 1; backward 10 1.43875 1.61875].

Definition active_high_segments : list segment :=
  [forward 11 1.61875 1.62 1; forward 12 1.62 1.621 1].

(** The passive curve from 1 up to the last interior knot 1.601. *)
Definition passive_segments : list segment :=
  [forward 2 1 1.1 1; forward 3 1.1 1.2 1; forward 4 1.2 1.3 1;
   forward 5 1.3 1.4 1; forward 6 1.4 1.5 1; forward 7 1.5 1.6 1;
   forward 8 1.6 1.601 1].

(* ================================================================= *)
(** ** Console output, plotting and the driver

    What the program prints and plots is kept as a list of events.  Turning
    a float into text (an f-string field) and [np.round] are parameters;
    matplotlib is reduced to the figure it is asked to draw. *)

Record figure : Type := {
  fig_title : String.string;
  fig_xlabel : String.string;
  fig_ylabel : String.string;
  fig_legend : list String.string;
  fig_xlim : R * R;
  fig_ylim : R * R;
  (* each line: abscissas, ordinates, format string *)
  fig_lines : list (list npfloat * list npfloat * String.string)
}.

Inductive event : Type :=
| Printed (message : String.string)
| Shown (fig : figure).

(** A computation that emits events and then returns or raises; the events
    emitted before an exception stay emitted. *)
Definition io (T : Type) : Type := (list event * exn T)%type.

Definition io_ret {T : Type} (v : T) : io T := ([], Ret v).

Definition io_bind {T U : Type} (m : io T) (k : T -> io U) : io U :=
  match m with
  | (log, Ret v) => let (log', r) := k v in (log ++ log', r)
  | (log, Raise e) => (log, Raise e)
  end.

Definition io_lift {T : Type} (m : exn T) : io T := ([], m).

Definition print (message : String.string) : io unit := ([Printed message], Ret tt).

Notation "x <~ m ;; k" := (io_bind m (fun x => k))
  (at level 61, m at next level, right associativity).

Fixpoint for_each {T : Type} (l : list T) (body : T -> io unit) : io unit :=
  match l with
  | [] => io_ret tt
  | x :: l' => _ <~ body x ;; for_each l' body
  end.

Section Driver.
Variable format_float : npfloat -> String.string.
Variable np_round : npfloat -> nat -> npfloat.

Definition mes_active_muscle_force_value (self : Hill_type_muscle)
           (l_mt : npfloat) : io unit :=
  f_am <~ io_lift (get_active_force_length_value self l_mt) ;;
  let message :=
    String.append "Active Force-Length Value when l_mt = "%string
      (String.append (format_float l_mt)
         (String.append "m is "%string (format_float (np_round f_am 4%nat)))) in
  print message.

Definition mes_passive_muscle_force_value (self : Hill_type_muscle)
           (l_mt : npfloat) : io unit :=
  f_pm <~ io_lift (get_passive_force_length_value self l_mt) ;;
  let message :=
    String.append "Passive Force-Length Value when l_mt = "%string
      (String.append (format_float l_mt)
         (String.append "m is "%string (format_float (np_round f_pm 4%nat)))) in
  print message.

(** [ax.plot(x, y, fmt)] refuses arrays of different lengths. *)
Definition ax_plot (fig : figure) (x y : list npfloat) (fmt : String.string)
  : exn figure :=
  if Nat.eqb (List.length x) (List.length y) then
    Ret {| fig_title := fig_title fig; fig_xlabel := fig_xlabel fig;
           fig_ylabel := fig_ylabel fig; fig_legend := fig_legend fig;
           fig_xlim := fig_xlim fig; fig_ylim := fig_ylim fig;
           fig_lines := fig_lines fig ++ [(x, y, fmt)] |}
  else Raise ValueError.

Definition plot_force (u active_force total_force : list npfloat)
           (title : String.string) : io unit :=
  let legends := ["Active Force"; "Total Force"]%string in
  let y_label := "Muscle Force [N]"%string in
  let x_label := "Muscle Excitation"%string in
  let ax := {| fig_title := String.EmptyString; fig_xlabel := String.EmptyString;
               fig_ylabel := String.EmptyString;
               fig_legend := []; fig_xlim := (0, 1); fig_ylim := (0, 3600);
               fig_lines := [] |} in
  ax <~ io_lift (ax_plot ax u active_force "r"%string) ;;
  ax <~ io_lift (ax_plot ax u total_force "g"%string) ;;
  let ax := {| fig_title := title; fig_xlabel := x_label;
               fig_ylabel := y_label; fig_legend := legends;
               fig_xlim := fig_xlim ax; fig_ylim := fig_ylim ax;
               fig_lines := fig_lines ax |} in
  ([Shown ax], Ret tt).

(** The body of the driver's loop over the lengths. *)
Definition main_iteration (Hill_Muscle : Hill_type_muscle)
           (u : list npfloat) (l_mt : npfloat) : io unit :=
  _ <~ mes_active_muscle_force_value Hill_Muscle l_mt ;;
  _ <~ mes_passive_muscle_force_value Hill_Muscle l_mt ;;
  F_A <~ io_lift (cal_active_muscle_force_arr Hill_Muscle l_mt u) ;;
  F <~ io_lift (cal_muscle_fiber_force_arr Hill_Muscle l_mt u) ;;
  let title :=
    String.append "Total muscle-tendon length = "%string
      (String.append (format_float l_mt) " m"%string) in
  plot_force u F_A F title.

Definition main : io unit :=
  let l_mts := [Fin 0.30; Fin 0.31; Fin 0.32] in
  let Hill_Muscle := default_muscle in
  let u := map Fin (linspace01 200) in
  for_each l_mts (main_iteration Hill_Muscle u).
End Driver.

(** What one figure of the driver shows: the two force curves over the
    200 excitations, both non-decreasing, the total never below the active
    force, and every force inside the y-range of the axes. *)
Definition figure_ok (fig : figure) : Prop :=
  fig_xlim fig = (0, 1) /\ fig_ylim fig = (0, 3600)
  /\ exists F_A F : list R,
       fig_lines fig
       = [(map Fin (linspace01 200), map Fin F_A, "r"%string);
          (map Fin (linspace01 200), map Fin F, "g"%string)]
       /\ List.length F_A = 200%nat /\ List.length F = 200%nat
       /\ nondecreasing F_A /\ nondecreasing F
       /\ Forall (fun y => 0 <= y <= 3600) F_A
       /\ Forall (fun y => 0 <= y <= 3600) F
       /\ Forall2 Rle F_A F.

(* ================================================================= *)
(** * Properties *)

(** ** The spline routines commute with maps between number structures *)

Section Morphism.
Context {F G : Type} {NF : Num F} {NG : Num G} (phi : F -> G).
Hypothesis phi_ofQ : forall q, phi (ofQ q) = ofQ q.
Hypothesis phi_add : forall a b, phi (nadd a b) = nadd (phi a) (phi b).
Hypothesis phi_sub : forall a b, phi (nsub a b) = nsub (phi a) (phi b).
Hypothesis phi_mul : forall a b, phi (nmul a b) = nmul (phi a) (phi b).
Hypothesis phi_div : forall a q, ~ (q == 0)%Q ->
  phi (ndiv a (ofQ q)) = ndiv (phi a) (ofQ q).

Lemma deBoor_sweep_morph t x ell j : forall hh n prev,
  deBoor_sweep t (phi x) ell j n (phi prev) (map phi hh)
  = map phi (deBoor_sweep t x ell j n prev hh).
Proof.
  induction hh as [|hn hh IH]; intros n prev; simpl; [reflexivity|].
  destruct (Qeq_bool (knot t (ell + n)) (knot t (ell + n - j))) eqn:E.
  - simpl. rewrite <- IH, phi_ofQ. reflexivity.
  - assert (Hnz : ~ (knot t (ell + n) - knot t (ell + n - j) == 0)%Q).
    { intro Hz. apply Qeq_bool_neq in E. apply E.
      rewrite <- (Qplus_0_l (knot t (ell + n - j))), <- Hz. ring. }
    simpl. rewrite <- IH.
    rewrite !phi_add, !phi_mul, !phi_sub, !phi_div, !phi_ofQ by exact Hnz.
    reflexivity.
Qed.

Lemma deBoor_loop_morph t x ell : forall rounds j h,
  deBoor_loop t (phi x) ell j rounds (map phi h)
  = map phi (deBoor_loop t x ell j rounds h).
Proof.
  induction rounds as [|r IH]; intros j h; simpl; [reflexivity|].
  rewrite <- IH, <- deBoor_sweep_morph, phi_ofQ. reflexivity.
Qed.

Lemma deBoor_D_morph t x k ell :
  deBoor_D t (phi x) k ell = map phi (deBoor_D t x k ell).
Proof.
  unfold deBoor_D. rewrite <- deBoor_loop_morph. simpl.
  rewrite phi_ofQ. reflexivity.
Qed.

Lemma dot_morph : forall c h, dot c (map phi h) = phi (dot c h).
Proof.
  induction c as [|ci c IH]; intros [|hi h]; simpl;
    rewrite ?phi_ofQ; try reflexivity.
  rewrite phi_add, phi_mul, phi_ofQ, IH. reflexivity.
Qed.

Lemma spline_on_morph t c k ell x :
  spline_on t c k ell (phi x) = phi (spline_on t c k ell x).
Proof.
  unfold spline_on. rewrite deBoor_D_morph. apply dot_morph.
Qed.
End Morphism.

(** *** From [Q] to [R] *)

Lemma Q2R_Qred q : Q2R (Qred q) = Q2R q.
Proof. apply Qeq_eqR, Qred_correct. Qed.

Lemma Rleb_Q2R a b : Rleb (Q2R a) (Q2R b) = Qle_bool a b.
Proof.
  unfold Rleb. destruct (Rle_dec (Q2R a) (Q2R b)) as [Hle|Hn].
  - symmetry. apply Qle_bool_iff, Rle_Qle, Hle.
  - destruct (Qle_bool a b) eqn:E; [|reflexivity].
    exfalso. apply Hn, Qle_Rle, Qle_bool_iff, E.
Qed.

Lemma spline_on_Q2R t c k ell (q : Q) :
  spline_on t c k ell (Q2R q) = Q2R (spline_on t c k ell q).
Proof.
  apply (spline_on_morph Q2R); intros; unfold ofQ, nadd, nsub, nmul, ndiv, NumQ, NumR.
  - reflexivity.
  - rewrite Q2R_Qred. apply Q2R_plus.
  - rewrite Q2R_Qred. apply Q2R_minus.
  - rewrite Q2R_Qred. apply Q2R_mult.
  - rewrite Q2R_Qred. apply Q2R_div. assumption.
Qed.

Lemma find_interval_from_Q2R (q : Q) : forall ts l,
  find_interval_from ts (Q2R q) l = find_interval_from ts q l.
Proof.
  induction ts as [|tl ts IH]; intros l; simpl; [reflexivity|].
  rewrite Rleb_Q2R, IH. reflexivity.
Qed.

Lemma evaluate_spline_Q2R t c k (q : Q) :
  evaluate_spline t c k (Q2R q) = Q2R (evaluate_spline t c k q).
Proof.
  unfold evaluate_spline, find_interval.
  rewrite find_interval_from_Q2R. apply spline_on_Q2R.
Qed.

(** Calling an interpolant at a rational point inside its range: the
    value is the one computed in [Q]. *)
Lemma interp1d_call_Q2R f (q : Q) :
  Qle_bool (hd 0%Q (i_x f)) q = true ->
  Qle_bool q (last (i_x f) 0%Q) = true ->
  interp1d_call f (Fin (Q2R q))
  = Ret (Fin (Q2R (BSpline_call (i_spline f) q))).
Proof.
  intros Hlo Hhi. unfold interp1d_call.
  apply Qle_bool_iff, Qle_Rle in Hlo. apply Qle_bool_iff, Qle_Rle in Hhi.
  destruct (Rlt_dec _ _) as [H1|_]; [lra|].
  destruct (Rlt_dec _ _) as [H2|_]; [lra|].
  unfold BSpline_call. rewrite evaluate_spline_Q2R. reflexivity.
Qed.

(** Inside the range the call returns a finite number. *)
Lemma interp1d_call_in_range f (r : R) :
  Q2R (hd 0%Q (i_x f)) <= r <= Q2R (last (i_x f) 0%Q) ->
  interp1d_call f (Fin r) = Ret (Fin (BSpline_call (i_spline f) r)).
Proof.
  intros [Hlo Hhi]. unfold interp1d_call.
  destruct (Rlt_dec _ _) as [H1|_]; [lra|].
  destruct (Rlt_dec _ _) as [H2|_]; [lra|].
  reflexivity.
Qed.

Lemma interp1d_call_out_of_range f (r : R) :
  r < Q2R (hd 0%Q (i_x f)) \/ Q2R (last (i_x f) 0%Q) < r ->
  interp1d_call f (Fin r) = Raise ValueError.
Proof.
  intros Hout. unfold interp1d_call.
  destruct (Rlt_dec _ _) as [H1|H1]; [reflexivity|].
  destruct (Rlt_dec _ _) as [H2|H2]; [reflexivity|].
  lra.
Qed.

(** *** The two curves of the muscle *)

Lemma get_active_force_length_function_eq :
  get_active_force_length_function = Ret active_curve.
Proof. vm_compute. reflexivity. Qed.

Lemma get_passive_force_length_function_eq :
  get_passive_force_length_function = Ret passive_curve.
Proof. vm_compute. reflexivity. Qed.

Lemma active_curve_range :
  Q2R (hd 0%Q (i_x active_curve)) = -5 /\ Q2R (last (i_x active_curve) 0%Q) = 5.
Proof. unfold Q2R; simpl; split; lra. Qed.

Lemma passive_curve_range :
  Q2R (hd 0%Q (i_x passive_curve)) = -5 /\ Q2R (last (i_x passive_curve) 0%Q) = 5.
Proof. unfold Q2R; simpl; split; lra. Qed.

(** ** Activation *)

Lemma exp_minus_1_neq_0 (a : R) : a <> 0 -> exp a - 1 <> 0.
Proof.
  intros Ha. pose proof (exp_ineq1 a Ha).
  destruct (Rlt_dec a 0) as [Hneg|Hpos].
  - pose proof (exp_increasing a 0 Hneg) as Hlt. rewrite exp_0 in Hlt. lra.
  - assert (0 < a) as H0 by lra.
    pose proof (exp_increasing 0 a H0) as Hlt. rewrite exp_0 in Hlt. lra.
Qed.

Lemma cal_muscle_activation_fin self (u : R) :
  A self <> 0 ->
  cal_muscle_activation self (Fin u) = Fin (activation_formula (A self) u).
Proof.
  intros Ha. unfold cal_muscle_activation, activation_formula. simpl.
  destruct (Req_dec_T (exp (A self) - 1) 0) as [Hz|_]; [|reflexivity].
  exfalso. exact (exp_minus_1_neq_0 _ Ha Hz).
Qed.

Lemma cal_muscle_activation_nan self (u : R) :
  A self = 0 -> cal_muscle_activation self (Fin u) = NaN.
Proof.
  intros Ha. unfold cal_muscle_activation. simpl. rewrite Ha.
  destruct (Req_dec_T (exp 0 - 1) 0) as [_|Hn].
  - destruct (Req_dec_T (exp (0 * u) - 1) 0) as [_|Hn]; [reflexivity|].
    exfalso. apply Hn. rewrite Rmult_0_l, exp_0. lra.
  - exfalso. apply Hn. rewrite exp_0. lra.
Qed.

Lemma activation_formula_0 (a : R) : activation_formula a 0 = 0.
Proof.
  unfold activation_formula. rewrite Rmult_0_r, exp_0.
  unfold Rdiv. rewrite Rminus_diag. apply Rmult_0_l.
Qed.

Lemma activation_formula_1 (a : R) : a <> 0 -> activation_formula a 1 = 1.
Proof.
  intros Ha. unfold activation_formula. rewrite Rmult_1_r.
  apply Rdiv_diag, exp_minus_1_neq_0, Ha.
Qed.

Lemma activation_formula_monotone (a u1 u2 : R) :
  a < 0 -> u1 <= u2 -> activation_formula a u1 <= activation_formula a u2.
Proof.
  intros Ha Hu. unfold activation_formula.
  assert (HD : exp a - 1 < 0).
  { pose proof (exp_increasing a 0 Ha) as Hlt. rewrite exp_0 in Hlt. lra. }
  assert (HN : exp (a * u2) <= exp (a * u1)).
  { destruct Hu as [Hlt|Heq]; [|subst; lra].
    left. apply exp_increasing. nra. }
  unfold Rdiv.
  assert (Hinv : / (exp a - 1) < 0) by (apply Rinv_lt_0_compat; exact HD).
  nra.
Qed.

(** ** Geometry *)

Lemma fiber_operand_nonneg (c d : R) : 0 <= c ^ 2 + d ^ 2.
Proof. nra. Qed.

Lemma cal_muscle_fiber_length_fin self (l_mt : R) :
  cal_muscle_fiber_length self (Fin l_mt)
  = Fin (sqrt ((l_0 self * sin (phi_0 self)) ^ 2 + (l_mt - l_t self) ^ 2)).
Proof.
  unfold cal_muscle_fiber_length. simpl.
  destruct (Rlt_dec _ 0) as [Hneg|_]; [|reflexivity].
  exfalso.
  pose proof (fiber_operand_nonneg (l_0 self * sin (phi_0 self)) (l_mt - l_t self)).
  simpl in *. lra.
Qed.

Lemma cal_normalized_muscle_fiber_length_fin self (l_mt : R) :
  l_0 self <> 0 ->
  cal_normalized_muscle_fiber_length self (Fin l_mt)
  = Fin (sqrt ((l_0 self * sin (phi_0 self)) ^ 2 + (l_mt - l_t self) ^ 2)
         / l_0 self).
Proof.
  intros Hl. unfold cal_normalized_muscle_fiber_length.
  rewrite cal_muscle_fiber_length_fin. simpl.
  destruct (Req_dec_T (l_0 self) 0) as [Hz|_]; [contradiction|reflexivity].
Qed.

(** ** Force-length values inside and outside the tabulated range *)

Lemma get_active_force_length_value_in_domain self (l_mt l_hat : R) :
  cal_normalized_muscle_fiber_length self (Fin l_mt) = Fin l_hat ->
  -5 <= l_hat <= 5 ->
  get_active_force_length_value self (Fin l_mt)
  = Ret (Fin (active_curve_value l_hat)).
Proof.
  intros Hn Hr. unfold get_active_force_length_value.
  rewrite get_active_force_length_function_eq. cbn [bind]. rewrite Hn.
  apply interp1d_call_in_range.
  destruct active_curve_range as [-> ->]. exact Hr.
Qed.

Lemma get_passive_force_length_value_in_domain self (l_mt l_hat : R) :
  cal_normalized_muscle_fiber_length self (Fin l_mt) = Fin l_hat ->
  -5 <= l_hat <= 5 ->
  get_passive_force_length_value self (Fin l_mt)
  = Ret (Fin (passive_curve_value l_hat)).
Proof.
  intros Hn Hr. unfold get_passive_force_length_value.
  rewrite get_passive_force_length_function_eq. cbn [bind]. rewrite Hn.
  apply interp1d_call_in_range.
  destruct passive_curve_range as [-> ->]. exact Hr.
Qed.

(** ** Bounds on the fibre length *)

Lemma sqrt_between (s lo hi : R) :
  0 <= lo -> 0 <= hi -> lo ^ 2 <= s <= hi ^ 2 -> lo <= sqrt s <= hi.
Proof.
  intros Hlo Hhi [H1 H2]. split.
  - rewrite <- (sqrt_pow2 lo Hlo) at 1. apply sqrt_le_1_alt, H1.
  - rewrite <- (sqrt_pow2 hi Hhi). apply sqrt_le_1_alt, H2.
Qed.

Lemma sqrt_strictly_between (s lo hi : R) :
  0 <= lo -> 0 <= hi -> lo ^ 2 < s < hi ^ 2 -> lo < sqrt s < hi.
Proof.
  intros Hlo Hhi [H1 H2]. split.
  - rewrite <- (sqrt_pow2 lo Hlo) at 1. apply sqrt_lt_1_alt. split; [nra|exact H1].
  - rewrite <- (sqrt_pow2 hi Hhi). apply sqrt_lt_1_alt. split; [nra|exact H2].
Qed.

Lemma sin_pow2_bound (x : R) : 0 <= sin x ^ 2 <= 1.
Proof. pose proof (SIN_bound x). nra. Qed.

(** With the default parameters every length within 0.2 m of the tendon
    length is in the curve domain; the driver's lengths 0.30, 0.31, 0.32
    are. *)
Lemma default_muscle_in_curve_domain (l_mt : R) :
  0.05 <= l_mt <= 0.45 -> in_curve_domain default_muscle l_mt.
Proof.
  intros [Hl1 Hl2]. unfold in_curve_domain.
  eexists. split.
  - apply cal_normalized_muscle_fiber_length_fin. simpl. lra.
  - simpl l_0. simpl phi_0. simpl l_t.
    pose proof (sin_pow2_bound 0.2) as Hs.
    assert (Hb : 0 <= sqrt ((0.05 * sin 0.2) ^ 2 + (l_mt - 0.25) ^ 2) <= 0.25).
    { apply sqrt_between; try lra.
      assert (Hd : (l_mt - 0.25) ^ 2 <= 0.04) by (clear Hs; nra).
      assert (Hd0 : 0 <= (l_mt - 0.25) ^ 2) by apply pow2_ge_0.
      rewrite Rpow_mult_distr.
      destruct Hs. split; lra. }
    lra.
Qed.

(** ** The claims *)

(** C2. For every real excitation [u], [cal_muscle_activation] returns
    [(exp(A*u) - 1) / (exp(A) - 1)] when the shape factor [A] is not zero;
    when [A] is zero the formula divides zero by zero and the result is
    undefined: numpy yields nan. *)
Theorem cal_muscle_activation_formula (self : Hill_type_muscle) (u : R) :
  (A self <> 0 ->
   cal_muscle_activation self (Fin u)
   = Fin ((exp (A self * u) - 1) / (exp (A self) - 1)))
  /\ (A self = 0 -> cal_muscle_activation self (Fin u) = NaN).
Proof.
  split.
  - intros Ha. apply cal_muscle_activation_fin, Ha.
  - intros Ha. apply cal_muscle_activation_nan, Ha.
Qed.

Lemma cal_muscle_activation_formula_witness :
  cal_muscle_activation default_muscle (Fin 0.5)
  = Fin ((exp (-0.1 * 0.5) - 1) / (exp (-0.1) - 1))
  /\ cal_muscle_activation flat_muscle (Fin 0.5) = NaN.
Proof.
  split.
  - apply (proj1 (cal_muscle_activation_formula default_muscle 0.5)).
    simpl. lra.
  - apply (proj2 (cal_muscle_activation_formula flat_muscle 0.5)).
    reflexivity.
Defined.

(** C3. For every non-zero shape factor, [cal_muscle_activation(0) = 0] and
    [cal_muscle_activation(1) = 1]; for a negative shape factor the
    activation is monotonically increasing in [u]. *)
Theorem cal_muscle_activation_endpoints_monotone (self : Hill_type_muscle) :
  (A self <> 0 ->
   cal_muscle_activation self (Fin 0) = Fin 0 /\
   cal_muscle_activation self (Fin 1) = Fin 1)
  /\ (A self < 0 ->
      forall u1 u2 : R, u1 <= u2 ->
      exists a1 a2 : R,
        cal_muscle_activation self (Fin u1) = Fin a1 /\
        cal_muscle_activation self (Fin u2) = Fin a2 /\
        a1 <= a2).
Proof.
  split.
  - intros Ha. rewrite !cal_muscle_activation_fin by exact Ha.
    rewrite activation_formula_0, activation_formula_1 by exact Ha.
    split; reflexivity.
  - intros Ha u1 u2 Hu.
    exists (activation_formula (A self) u1), (activation_formula (A self) u2).
    assert (Hnz : A self <> 0) by lra.
    rewrite !cal_muscle_activation_fin by exact Hnz.
    repeat split. apply activation_formula_monotone; assumption.
Qed.

Lemma cal_muscle_activation_endpoints_monotone_witness :
  (cal_muscle_activation default_muscle (Fin 0) = Fin 0 /\
   cal_muscle_activation default_muscle (Fin 1) = Fin 1)
  /\ exists a1 a2 : R,
       cal_muscle_activation default_muscle (Fin 0.25) = Fin a1 /\
       cal_muscle_activation default_muscle (Fin 0.75) = Fin a2 /\
       a1 <= a2.
Proof.
  split.
  - apply (proj1 (cal_muscle_activation_endpoints_monotone default_muscle)).
    simpl. lra.
  - apply (proj2 (cal_muscle_activation_endpoints_monotone default_muscle)).
    + simpl. lra.
    + lra.
Defined.

(** C4 as stated fails when [l_0 * sin(phi_0)] is negative: with the
    pennation angle mirrored to -0.2 rad the fibre length at
    [l_mt = l_t] is positive while [l_0 * sin(phi_0)] is negative. *)
Lemma cal_muscle_fiber_length_mirrored_counterexample :
  exists l_m : R,
    cal_muscle_fiber_length mirrored_muscle (Fin (l_t mirrored_muscle)) = Fin l_m
    /\ l_0 mirrored_muscle * sin (phi_0 mirrored_muscle) < 0 <= l_m
    /\ l_m <> l_0 mirrored_muscle * sin (phi_0 mirrored_muscle).
Proof.
  eexists. split; [apply cal_muscle_fiber_length_fin|].
  assert (Hs : sin (-0.2) < 0).
  { apply sin_lt_0_var; [|lra]. pose proof PI2_1. lra. }
  assert (Hneg : l_0 mirrored_muscle * sin (phi_0 mirrored_muscle) < 0).
  { simpl. nra. }
  pose proof (sqrt_pos ((l_0 mirrored_muscle * sin (phi_0 mirrored_muscle)) ^ 2
                        + (l_t mirrored_muscle - l_t mirrored_muscle) ^ 2)).
  repeat split; lra.
Qed.

(** C4, amended. For every real [l_mt], [cal_muscle_fiber_length] returns
    [sqrt((l_0*sin(phi_0))^2 + (l_mt - l_t)^2)], which is never negative;
    at [l_mt = l_t] it returns the absolute value [|l_0 * sin(phi_0)|],
    which is the minimum over all [l_mt], and which is [l_0 * sin(phi_0)]
    itself when that product is not negative. *)
Theorem cal_muscle_fiber_length_spec (self : Hill_type_muscle) (l_mt : R) :
  let l_m := sqrt ((l_0 self * sin (phi_0 self)) ^ 2 + (l_mt - l_t self) ^ 2) in
  cal_muscle_fiber_length self (Fin l_mt) = Fin l_m
  /\ 0 <= l_m
  /\ cal_muscle_fiber_length self (Fin (l_t self))
     = Fin (Rabs (l_0 self * sin (phi_0 self)))
  /\ Rabs (l_0 self * sin (phi_0 self)) <= l_m
  /\ (0 <= l_0 self * sin (phi_0 self) ->
      cal_muscle_fiber_length self (Fin (l_t self))
      = Fin (l_0 self * sin (phi_0 self))).
Proof.
  intros l_m.
  assert (Hat : cal_muscle_fiber_length self (Fin (l_t self))
                = Fin (Rabs (l_0 self * sin (phi_0 self)))).
  { rewrite cal_muscle_fiber_length_fin. f_equal.
    rewrite <- sqrt_Rsqr_abs. f_equal. unfold Rsqr. ring. }
  split; [apply cal_muscle_fiber_length_fin|].
  split; [apply sqrt_pos|].
  split; [exact Hat|].
  split.
  - rewrite <- sqrt_Rsqr_abs. apply sqrt_le_1_alt.
    pose proof (pow2_ge_0 (l_mt - l_t self)). unfold Rsqr. nra.
  - intros Hpos. rewrite Hat, Rabs_pos_eq by exact Hpos. reflexivity.
Qed.

Lemma cal_muscle_fiber_length_spec_witness :
  cal_muscle_fiber_length straight_muscle (Fin (l_t straight_muscle))
  = Fin (l_0 straight_muscle * sin (phi_0 straight_muscle)).
Proof.
  apply (cal_muscle_fiber_length_spec straight_muscle 0.3).
  simpl. rewrite sin_0. lra.
Defined.

(** C9. When the normalised fibre length of [l_mt] lies outside the
    tabulated range [-5, 5], [get_active_force_length_value] and
    [get_passive_force_length_value] raise ValueError instead of returning
    a value. *)
Theorem force_length_value_out_of_domain (self : Hill_type_muscle) (l_mt : R) :
  out_of_curve_domain self l_mt ->
  get_active_force_length_value self (Fin l_mt) = Raise ValueError
  /\ get_passive_force_length_value self (Fin l_mt) = Raise ValueError.
Proof.
  unfold out_of_curve_domain.
  unfold get_active_force_length_value, get_passive_force_length_value.
  rewrite get_active_force_length_function_eq,
          get_passive_force_length_function_eq.
  cbn [bind].
  destruct (cal_normalized_muscle_fiber_length self (Fin l_mt))
    as [l_hat|s|]; intros Hout.
  - split; apply interp1d_call_out_of_range.
    + destruct active_curve_range as [-> ->]. exact Hout.
    + destruct passive_curve_range as [-> ->]. exact Hout.
  - split; reflexivity.
  - contradiction.
Qed.

Lemma force_length_value_out_of_domain_witness :
  get_active_force_length_value default_muscle (Fin 1) = Raise ValueError
  /\ get_passive_force_length_value default_muscle (Fin 1) = Raise ValueError.
Proof.
  apply (force_length_value_out_of_domain default_muscle 1).
  unfold out_of_curve_domain.
  rewrite cal_normalized_muscle_fiber_length_fin by (simpl; lra).
  right. simpl l_0. simpl phi_0. simpl l_t.
  assert (Hb : 0.75 <= sqrt ((0.05 * sin 0.2) ^ 2 + (1 - 0.25) ^ 2)).
  { rewrite <- (sqrt_pow2 0.75) at 1 by lra. apply sqrt_le_1_alt.
    pose proof (pow2_ge_0 (0.05 * sin 0.2)). lra. }
  lra.
Defined.

(** C5. For every [l_mt] in the curve domain and every real [u], with a
    non-zero shape factor, [cal_active_muscle_force(l_mt, u)] is the active
    force-length value times [F_0] times the activation of [u]; with
    [u = 0] it is 0. *)
Theorem cal_active_muscle_force_spec (self : Hill_type_muscle) (l_mt u : R) :
  A self <> 0 ->
  in_curve_domain self l_mt ->
  exists f_am a : R,
    get_active_force_length_value self (Fin l_mt) = Ret (Fin f_am)
    /\ cal_muscle_activation self (Fin u) = Fin a
    /\ cal_active_muscle_force self (Fin l_mt) (Fin u)
       = Ret (Fin (f_am * F_0 self * a))
    /\ cal_active_muscle_force self (Fin l_mt) (Fin 0) = Ret (Fin 0).
Proof.
  intros Ha (l_hat & Hn & Hr).
  exists (active_curve_value l_hat), (activation_formula (A self) u).
  pose proof (get_active_force_length_value_in_domain self l_mt l_hat Hn Hr) as Hf.
  split; [exact Hf|].
  split; [apply cal_muscle_activation_fin, Ha|].
  unfold cal_active_muscle_force. rewrite Hf. cbn [bind].
  rewrite !cal_muscle_activation_fin by exact Ha.
  rewrite activation_formula_0. cbn [np_mul].
  rewrite Rmult_0_r. split; reflexivity.
Qed.

Lemma cal_active_muscle_force_spec_witness :
  exists f_am a : R,
    get_active_force_length_value default_muscle (Fin 0.30) = Ret (Fin f_am)
    /\ cal_muscle_activation default_muscle (Fin 0.5) = Fin a
    /\ cal_active_muscle_force default_muscle (Fin 0.30) (Fin 0.5)
       = Ret (Fin (f_am * F_0 default_muscle * a))
    /\ cal_active_muscle_force default_muscle (Fin 0.30) (Fin 0) = Ret (Fin 0).
Proof.
  apply (cal_active_muscle_force_spec default_muscle 0.30 0.5).
  - simpl. lra.
  - apply default_muscle_in_curve_domain. lra.
Defined.

(** C6. For every [l_mt] whose normalised fibre length is inside the
    tabulated range, [cal_passive_muscle_force(l_mt)] is the passive
    force-length value times [F_0]. *)
Theorem cal_passive_muscle_force_scaling (self : Hill_type_muscle) (l_mt : R) :
  in_curve_domain self l_mt ->
  exists f_pm : R,
    get_passive_force_length_value self (Fin l_mt) = Ret (Fin f_pm)
    /\ cal_passive_muscle_force self (Fin l_mt) = Ret (Fin (f_pm * F_0 self)).
Proof.
  intros (l_hat & Hn & Hr).
  exists (passive_curve_value l_hat).
  pose proof (get_passive_force_length_value_in_domain self l_mt l_hat Hn Hr) as Hf.
  split; [exact Hf|].
  unfold cal_passive_muscle_force. rewrite Hf. reflexivity.
Qed.

Lemma cal_passive_muscle_force_scaling_witness :
  exists f_pm : R,
    get_passive_force_length_value default_muscle (Fin 0.31) = Ret (Fin f_pm)
    /\ cal_passive_muscle_force default_muscle (Fin 0.31)
       = Ret (Fin (f_pm * F_0 default_muscle)).
Proof.
  apply (cal_passive_muscle_force_scaling default_muscle 0.31).
  apply default_muscle_in_curve_domain. lra.
Defined.

(** C1. For every [l_mt] in the curve domain and every real [u], with a
    non-zero shape factor, [cal_muscle_fiber_force(l_mt, u)] is
    [cal_active_muscle_force(l_mt, cal_muscle_activation(u))] plus
    [cal_passive_muscle_force(l_mt)]: the activation [a] of [u] goes into
    the active force, which applies the activation formula to [a] again, so
    the active part is the active force-length value times [F_0] times the
    activation of the activation of [u]. *)
Theorem cal_muscle_fiber_force_activates_twice (self : Hill_type_muscle) (l_mt u : R) :
  A self <> 0 ->
  in_curve_domain self l_mt ->
  exists f_am f_pm a aa : R,
    cal_muscle_activation self (Fin u) = Fin a
    /\ cal_muscle_activation self (Fin a) = Fin aa
    /\ get_active_force_length_value self (Fin l_mt) = Ret (Fin f_am)
    /\ get_passive_force_length_value self (Fin l_mt) = Ret (Fin f_pm)
    /\ cal_active_muscle_force self (Fin l_mt) (cal_muscle_activation self (Fin u))
       = Ret (Fin (f_am * F_0 self * aa))
    /\ cal_passive_muscle_force self (Fin l_mt) = Ret (Fin (f_pm * F_0 self))
    /\ cal_muscle_fiber_force self (Fin l_mt) (Fin u)
       = Ret (Fin (f_am * F_0 self * aa + f_pm * F_0 self)).
Proof.
  intros Ha (l_hat & Hn & Hr).
  pose proof (get_active_force_length_value_in_domain self l_mt l_hat Hn Hr) as Hfa.
  pose proof (get_passive_force_length_value_in_domain self l_mt l_hat Hn Hr) as Hfp.
  exists (active_curve_value l_hat), (passive_curve_value l_hat),
         (activation_formula (A self) u),
         (activation_formula (A self) (activation_formula (A self) u)).
  assert (Hact : cal_active_muscle_force self (Fin l_mt)
                   (cal_muscle_activation self (Fin u))
                 = Ret (Fin (active_curve_value l_hat * F_0 self
                             * activation_formula (A self)
                                 (activation_formula (A self) u)))).
  { unfold cal_active_muscle_force. rewrite Hfa. cbn [bind].
    rewrite !cal_muscle_activation_fin by exact Ha. reflexivity. }
  assert (Hpas : cal_passive_muscle_force self (Fin l_mt)
                 = Ret (Fin (passive_curve_value l_hat * F_0 self))).
  { unfold cal_passive_muscle_force. rewrite Hfp. reflexivity. }
  repeat split; try assumption;
    try (apply cal_muscle_activation_fin; exact Ha).
  unfold cal_muscle_fiber_force. rewrite Hact. cbn [bind].
  rewrite Hpas. reflexivity.
Qed.

Lemma cal_muscle_fiber_force_activates_twice_witness :
  exists f_am f_pm a aa : R,
    cal_muscle_activation default_muscle (Fin 0.5) = Fin a
    /\ cal_muscle_activation default_muscle (Fin a) = Fin aa
    /\ get_active_force_length_value default_muscle (Fin 0.32) = Ret (Fin f_am)
    /\ get_passive_force_length_value default_muscle (Fin 0.32) = Ret (Fin f_pm)
    /\ cal_active_muscle_force default_muscle (Fin 0.32)
         (cal_muscle_activation default_muscle (Fin 0.5))
       = Ret (Fin (f_am * F_0 default_muscle * aa))
    /\ cal_passive_muscle_force default_muscle (Fin 0.32)
       = Ret (Fin (f_pm * F_0 default_muscle))
    /\ cal_muscle_fiber_force default_muscle (Fin 0.32) (Fin 0.5)
       = Ret (Fin (f_am * F_0 default_muscle * aa + f_pm * F_0 default_muscle)).
Proof.
  apply (cal_muscle_fiber_force_activates_twice default_muscle 0.32 0.5).
  - simpl. lra.
  - apply default_muscle_in_curve_domain. lra.
Defined.

(** ** The interpolants at rational points *)

Lemma takes_value_sound f xy :
  takes_value f xy = true ->
  interp1d_call f (Fin (Q2R (fst xy))) = Ret (Fin (Q2R (snd xy))).
Proof.
  unfold takes_value. intros H.
  apply andb_true_iff in H as [H Hv]. apply andb_true_iff in H as [Hlo Hhi].
  rewrite interp1d_call_Q2R by assumption.
  do 2 f_equal. apply Qeq_eqR, Qeq_bool_iff, Hv.
Qed.

Lemma takes_value_all f l :
  forallb (takes_value f) l = true ->
  Forall (fun xy => interp1d_call f (Fin (Q2R (fst xy))) = Ret (Fin (Q2R (snd xy)))) l.
Proof.
  intros H. apply Forall_forall. intros xy Hin.
  apply takes_value_sound. revert xy Hin. apply forallb_forall, H.
Qed.

(** C7. The cubic interpolant of each table passes through every
    breakpoint: for each pair [(x, y)] of the active or of the passive
    table, the curve built by [get_active_force_length_function]
    (resp. [get_passive_force_length_function]) returns [y] at [x]; the
    active curve at 1.045 returns 0.993333. *)
Theorem force_length_curves_interpolate :
  get_active_force_length_function = Ret active_curve
  /\ get_passive_force_length_function = Ret passive_curve
  /\ Forall (fun xy => interp1d_call active_curve (Fin (Q2R (fst xy)))
                       = Ret (Fin (Q2R (snd xy))))
            (combine active_x active_y)
  /\ Forall (fun xy => interp1d_call passive_curve (Fin (Q2R (fst xy)))
                       = Ret (Fin (Q2R (snd xy))))
            (combine passive_x passive_y)
  /\ interp1d_call active_curve (Fin 1.045) = Ret (Fin 0.993333).
Proof.
  split; [apply get_active_force_length_function_eq|].
  split; [apply get_passive_force_length_function_eq|].
  split; [apply takes_value_all; vm_compute; reflexivity|].
  split; [apply takes_value_all; vm_compute; reflexivity|].
  apply (takes_value_sound active_curve (1.045, 0.993333)%Q).
  vm_compute. reflexivity.
Qed.

(** Give the value of a curve at a rational point of its range as the
    number computed in [Q], leaving the property of that number. *)
Ltac curve_at_rational :=
  eexists; split; [apply interp1d_call_Q2R; vm_compute; reflexivity|].

Lemma Q2R_neg (q : Q) : (q < 0)%Q -> Q2R q < 0.
Proof. intros H. apply Qlt_Rlt in H. rewrite RMicromega.Q2R_0 in H. exact H. Qed.

Lemma Q2R_above (lo q : Q) : (lo < q)%Q -> Q2R lo < Q2R q.
Proof. apply Qlt_Rlt. Qed.

(** C8 as stated fails between the breakpoints, where the cubic pieces
    swing away from the plateau values: the active curve is negative at
    0.2 (below 0.4035) and at 1.9 (above 1.61875); the passive curve is
    negative at 0.5 (below 1) and above 19 at 2.5 (above 1.6).  All four
    points are inside the tabulated range. *)
Lemma force_length_plateaus_counterexample :
  (exists v : R, interp1d_call active_curve (Fin 0.2) = Ret (Fin v) /\ v < 0)
  /\ (exists v : R, interp1d_call active_curve (Fin 1.9) = Ret (Fin v) /\ v < 0)
  /\ (exists v : R, interp1d_call passive_curve (Fin 0.5) = Ret (Fin v) /\ v < 0)
  /\ (exists v : R, interp1d_call passive_curve (Fin 2.5) = Ret (Fin v) /\ 19 < v).
Proof.
  repeat split.
  - curve_at_rational. apply Q2R_neg. vm_compute. reflexivity.
  - curve_at_rational. apply Q2R_neg. vm_compute. reflexivity.
  - curve_at_rational. apply Q2R_neg. vm_compute. reflexivity.
  - curve_at_rational.
    replace 19 with (Q2R 19) by (unfold Q2R; simpl; lra).
    apply Q2R_above. vm_compute. reflexivity.
Qed.

(** C8, amended. At every tabulated breakpoint at or below 0.4035 and at
    or above 1.61875 the active curve is exactly 0; at every tabulated
    breakpoint at or below 1 the passive curve is exactly 0, and at every
    tabulated breakpoint at or above 1.6 it is exactly 2. *)
Theorem force_length_plateaus_at_breakpoints :
  active_zero_breakpoints
  = [-5; 0; 0.401; 0.402; 0.4035; 1.61875; 1.62; 1.621; 2.2; 5]%Q
  /\ passive_zero_breakpoints = [-5; 0.998; 0.999; 1]%Q
  /\ passive_two_breakpoints = [1.6; 1.601; 1.602; 5]%Q
  /\ Forall (fun x => interp1d_call active_curve (Fin (Q2R x)) = Ret (Fin 0))
            active_zero_breakpoints
  /\ Forall (fun x => interp1d_call passive_curve (Fin (Q2R x)) = Ret (Fin 0))
            passive_zero_breakpoints
  /\ Forall (fun x => interp1d_call passive_curve (Fin (Q2R x)) = Ret (Fin 2))
            passive_two_breakpoints.
Proof.
  assert (H0 : Q2R 0 = 0) by apply RMicromega.Q2R_0.
  assert (H2 : Q2R 2 = 2) by (unfold Q2R; simpl; lra).
  split; [reflexivity|]. split; [reflexivity|]. split; [reflexivity|].
  split; [|split].
  - rewrite <- H0. apply Forall_forall. intros x Hin.
    apply (takes_value_sound active_curve (x, 0%Q)).
    revert x Hin. apply forallb_forall. vm_compute. reflexivity.
  - rewrite <- H0. apply Forall_forall. intros x Hin.
    apply (takes_value_sound passive_curve (x, 0%Q)).
    revert x Hin. apply forallb_forall. vm_compute. reflexivity.
  - rewrite <- H2. apply Forall_forall. intros x Hin.
    apply (takes_value_sound passive_curve (x, 2%Q)).
    revert x Hin. apply forallb_forall. vm_compute. reflexivity.
Qed.

(** ** Reading a spline piece as a polynomial *)

#[local] Arguments Qred : simpl never.
#[local] Arguments Qplus : simpl never.
#[local] Arguments Qmult : simpl never.
#[local] Arguments Qinv : simpl never.

Lemma peval_padd x : forall a b, peval (padd a b) x = peval a x + peval b x.
Proof.
  induction a as [|c a IH]; intros [|d b]; simpl; try lra.
  rewrite Q2R_Qred, Q2R_plus, IH. ring.
Qed.

Lemma peval_pscale x q : forall a, peval (pscale q a) x = Q2R q * peval a x.
Proof.
  induction a as [|c a IH]; simpl; [ring|].
  fold (pscale q a). rewrite Q2R_Qred, Q2R_mult, IH. ring.
Qed.

Lemma peval_psub x a b : peval (psub a b) x = peval a x - peval b x.
Proof.
  unfold psub. rewrite peval_padd, peval_pscale.
  replace (Q2R (-1)) with (-1) by (unfold Q2R; simpl; lra). ring.
Qed.

Lemma peval_pmul x : forall a b, peval (pmul a b) x = peval a x * peval b x.
Proof.
  induction a as [|c a IH]; intros b; simpl; [ring|].
  rewrite peval_padd, peval_pscale. simpl.
  rewrite IH, RMicromega.Q2R_0. ring.
Qed.

Lemma peval_pdiv x a (q : Q) :
  ~ (q == 0)%Q -> peval (pdiv a [q]) x = peval a x / Q2R q.
Proof.
  intros Hq. unfold pdiv. simpl hd.
  rewrite peval_pscale, Q2R_inv by exact Hq. unfold Rdiv. ring.
Qed.

Lemma peval_pX x : peval pX x = x.
Proof.
  unfold pX. simpl. rewrite RMicromega.Q2R_0, RMicromega.Q2R_1. ring.
Qed.

Lemma spline_on_peval t c k ell (x : R) :
  spline_on t c k ell x = peval (spline_on t c k ell pX) x.
Proof.
  rewrite <- (peval_pX x) at 1.
  apply (spline_on_morph (fun p => peval p x)); intros;
    unfold ofQ, nadd, nsub, nmul, ndiv, NumPoly, NumR.
  - simpl. ring.
  - apply peval_padd.
  - apply peval_psub.
  - apply peval_pmul.
  - apply peval_pdiv. assumption.
Qed.

Lemma peval_ext x : forall a b, poly_eqb a b = true -> peval a x = peval b x.
Proof.
  unfold poly_eqb.
  induction a as [|c a IH]; intros [|d b] H; simpl in *; try discriminate;
    [reflexivity|].
  apply andb_true_iff in H as [Hlen H]. apply andb_true_iff in H as [Hcd H].
  rewrite (Qeq_eqR c d) by (apply Qeq_bool_iff, Hcd).
  rewrite (IH b); [reflexivity|]. rewrite Hlen. exact H.
Qed.

(** The interval search passes every knot that is not above [x]. *)
Lemma find_interval_from_all (x : R) : forall ts l,
  Forall (fun tl => Q2R tl <= x) ts ->
  find_interval_from ts x l = (l + length ts)%nat.
Proof.
  induction ts as [|tl ts IH]; intros l H; simpl; [lia|].
  inversion H as [|? ? Hle Hrest]; subst.
  unfold Rleb. destruct (Rle_dec (Q2R tl) x) as [_|Hn]; [|contradiction].
  rewrite IH by exact Hrest. lia.
Qed.

(** ** The active curve beyond its last interior knot *)

Lemma find_interval_active_last (x : R) :
  1.621 <= x -> find_interval (bs_t (i_spline active_curve)) 3 x = 16%nat.
Proof.
  intros Hx. unfold find_interval. rewrite find_interval_from_all.
  - vm_compute. reflexivity.
  - apply Forall_forall. intros tl Hin.
    assert (Hle : Qle_bool tl 1.621 = true).
    { revert tl Hin. apply forallb_forall. vm_compute. reflexivity. }
    apply Qle_bool_iff, Qle_Rle in Hle. lra.
Qed.

Lemma active_curve_value_last_piece (x : R) :
  1.621 <= x -> active_curve_value x = peval active_last_piece x.
Proof.
  intros Hx. unfold active_curve_value, BSpline_call, evaluate_spline.
  rewrite find_interval_active_last by exact Hx.
  rewrite spline_on_peval. f_equal.
Qed.

Lemma active_last_piece_factors (x : R) :
  peval active_last_piece x
  = Q2R active_last_lead * ((x - 1.621) * ((x - 2.2) * (x - 5))).
Proof.
  rewrite (peval_ext x active_last_piece active_last_factored)
    by (vm_compute; reflexivity).
  unfold active_last_factored. rewrite !peval_pmul.
  cbn [peval]. generalize (Q2R active_last_lead) as k. intros k.
  unfold Q2R. simpl. field.
Qed.

Lemma active_last_lead_negative : Q2R active_last_lead < 0.
Proof. apply Q2R_neg. vm_compute. reflexivity. Qed.

(** Between the breakpoints 1.621 and 2.2 the active curve is negative. *)
Lemma active_curve_value_negative (x : R) :
  1.621 < x < 2.2 -> active_curve_value x < 0.
Proof.
  intros [H1 H2].
  rewrite active_curve_value_last_piece by lra.
  rewrite active_last_piece_factors.
  pose proof active_last_lead_negative as Hk.
  assert (Hbc : 0 < (x - 2.2) * (x - 5)) by nra.
  assert (Habc : 0 < (x - 1.621) * ((x - 2.2) * (x - 5)))
    by (apply Rmult_lt_0_compat; lra).
  nra.
Qed.

(** ** Sweeps of excitations *)

Lemma Sorted_map_monotone (g : R -> R) :
  (forall a b : R, a <= b -> g a <= g b) ->
  forall l : list R, Sorted Rle l -> Sorted Rle (map g l).
Proof.
  intros Hg l Hs. induction Hs as [|a l Hs IH Hhd]; simpl; constructor.
  - exact IH.
  - destruct Hhd as [|b l Hab]; simpl; constructor. apply Hg, Hab.
Qed.

Lemma Sorted_map_seq (h : nat -> R) :
  (forall i : nat, h i <= h (S i)) ->
  forall n a : nat, Sorted Rle (map h (seq a n)).
Proof.
  intros Hh. induction n as [|n IH]; intros a; simpl; constructor.
  - apply IH.
  - destruct n; simpl; constructor. apply Hh.
Qed.

Lemma linspace01_nondecreasing (n : nat) : nondecreasing (linspace01 n).
Proof.
  unfold nondecreasing, linspace01. apply Sorted_map_seq. intros i.
  unfold Rdiv. apply Rmult_le_compat_r.
  - destruct (n - 1)%nat as [|d].
    + simpl. rewrite Rinv_0. lra.
    + left. apply Rinv_0_lt_compat, lt_0_INR. lia.
  - apply le_INR. lia.
Qed.

Lemma linspace01_shape (m : nat) :
  exists tl : list R, linspace01 (S (S m)) = 0 :: tl /\ In 1 tl.
Proof.
  unfold linspace01. replace (S (S m) - 1)%nat with (S m) by lia.
  exists (map (fun i => INR i / INR (S m)) (seq 1 (S m))). split.
  - cbn [seq map]. f_equal. change (INR 0) with 0. unfold Rdiv. ring.
  - apply in_map_iff. exists (S m). split.
    + apply Rdiv_diag, not_0_INR. lia.
    + apply in_seq. lia.
Qed.

Lemma Sorted_head_le (a : R) (l : list R) (b : R) :
  Sorted Rle (a :: l) -> In b l -> a <= b.
Proof.
  intros Hs Hin.
  assert (Htr : Relations_1.Transitive Rle) by (intros x y z; apply Rle_trans).
  apply (Sorted_StronglySorted Htr) in Hs.
  inversion Hs as [|? ? _ Hall]; subst.
  rewrite Forall_forall in Hall. apply Hall, Hin.
Qed.

(** The array call, element by element. *)
Lemma cal_active_muscle_force_arr_fin self (l_mt f_am : R) (us : list R) :
  A self <> 0 ->
  get_active_force_length_value self (Fin l_mt) = Ret (Fin f_am) ->
  cal_active_muscle_force_arr self (Fin l_mt) (map Fin us)
  = Ret (map Fin (map (fun u => f_am * F_0 self * activation_formula (A self) u) us)).
Proof.
  intros Ha Hf. unfold cal_active_muscle_force_arr, cal_muscle_activation_arr.
  rewrite Hf. cbn [bind]. f_equal. rewrite !map_map. apply map_ext.
  intros u. rewrite cal_muscle_activation_fin by exact Ha. reflexivity.
Qed.

Lemma cal_active_muscle_force_fin self (l_mt f_am u : R) :
  A self <> 0 ->
  get_active_force_length_value self (Fin l_mt) = Ret (Fin f_am) ->
  cal_active_muscle_force self (Fin l_mt) (Fin u)
  = Ret (Fin (f_am * F_0 self * activation_formula (A self) u)).
Proof.
  intros Ha Hf. unfold cal_active_muscle_force. rewrite Hf. cbn [bind].
  rewrite cal_muscle_activation_fin by exact Ha. reflexivity.
Qed.

Lemma Forall2_map_r {X Y : Type} (P : X -> Y -> Prop) (g : X -> Y) :
  (forall x, P x (g x)) -> forall l, Forall2 P l (map g l).
Proof. intros H. induction l; simpl; constructor; auto. Qed.

(** The default muscle at [l_mt = 0.34]: the normalised length falls
    between the breakpoints 1.621 and 2.2. *)
Lemma default_muscle_normalized_length_034 :
  exists l_hat : R,
    cal_normalized_muscle_fiber_length default_muscle (Fin 0.34) = Fin l_hat
    /\ 1.621 < l_hat < 2.2.
Proof.
  eexists. split.
  - apply cal_normalized_muscle_fiber_length_fin. simpl. lra.
  - simpl l_0. simpl phi_0. simpl l_t.
    pose proof (sin_pow2_bound 0.2) as [Hs0 Hs1].
    assert (Hb : 0.08105 < sqrt ((0.05 * sin 0.2) ^ 2 + (0.34 - 0.25) ^ 2) < 0.11).
    { apply sqrt_strictly_between; lra. }
    lra.
Qed.

(** C10 as stated fails where the cubic interpolant dips below zero.  With
    the default parameters and [l_mt = 0.34] (in the curve domain) the
    200-point sweep [linspace(0, 1, 200)] is non-decreasing from 0 to 1 and
    [A < 0], yet the active forces start at 0 and end below 0. *)
Lemma active_force_sweep_counterexample :
  A default_muscle < 0
  /\ in_curve_domain default_muscle 0.34
  /\ nondecreasing (linspace01 200)
  /\ exists Fs : list R,
       cal_active_muscle_force_arr default_muscle (Fin 0.34)
         (map Fin (linspace01 200)) = Ret (map Fin Fs)
       /\ active_forces default_muscle 0.34 (linspace01 200) Fs
       /\ ~ nondecreasing Fs.
Proof.
  destruct default_muscle_normalized_length_034 as (l_hat & Hn & Hlo & Hhi).
  assert (Ha : A default_muscle <> 0) by (simpl; lra).
  assert (Hf : get_active_force_length_value default_muscle (Fin 0.34)
               = Ret (Fin (active_curve_value l_hat))).
  { apply get_active_force_length_value_in_domain; [exact Hn | lra]. }
  split; [simpl; lra|].
  split; [exists l_hat; split; [exact Hn | lra]|].
  split; [apply linspace01_nondecreasing|].
  eexists. split; [apply cal_active_muscle_force_arr_fin; eassumption|].
  split.
  - apply Forall2_map_r. intros u.
    apply cal_active_muscle_force_fin; assumption.
  - intros Hsorted.
    destruct (linspace01_shape 198) as (tl & Hshape & Hin).
    rewrite Hshape in Hsorted. cbn [map] in Hsorted.
    apply Sorted_head_le
      with (b := active_curve_value l_hat * F_0 default_muscle
                 * activation_formula (A default_muscle) 1) in Hsorted.
    + rewrite activation_formula_0, activation_formula_1 in Hsorted by exact Ha.
      pose proof (active_curve_value_negative l_hat (conj Hlo Hhi)) as Hneg.
      simpl F_0 in Hsorted. nra.
    + apply in_map_iff. exists 1. split; [reflexivity | exact Hin].
Qed.

(** C10, amended. For every [l_mt] at which the active force-length value
    [f_am] is returned, and every non-decreasing finite sequence of
    excitations, the active forces are non-decreasing when [A < 0] and
    [f_am * F_0] is not negative. *)
Theorem active_force_sweep_monotone
        (self : Hill_type_muscle) (l_mt f_am : R) (us : list R) :
  A self < 0 ->
  get_active_force_length_value self (Fin l_mt) = Ret (Fin f_am) ->
  0 <= f_am * F_0 self ->
  nondecreasing us ->
  exists Fs : list R,
    cal_active_muscle_force_arr self (Fin l_mt) (map Fin us) = Ret (map Fin Fs)
    /\ active_forces self l_mt us Fs
    /\ nondecreasing Fs.
Proof.
  intros Hneg Hf Hpos Hus.
  assert (Ha : A self <> 0) by lra.
  eexists. split; [apply cal_active_muscle_force_arr_fin; eassumption|].
  split.
  - apply Forall2_map_r. intros u.
    apply cal_active_muscle_force_fin; assumption.
  - apply Sorted_map_monotone; [|exact Hus].
    intros a b Hab.
    apply Rmult_le_compat_l; [exact Hpos|].
    apply activation_formula_monotone; assumption.
Qed.

Lemma straight_muscle_active_value :
  get_active_force_length_value straight_muscle (Fin 0.30225)
  = Ret (Fin 0.993333).
Proof.
  unfold get_active_force_length_value.
  rewrite get_active_force_length_function_eq. cbn [bind].
  rewrite cal_normalized_muscle_fiber_length_fin by (simpl; lra).
  simpl l_0. simpl phi_0. simpl l_t.
  replace (sqrt ((0.05 * sin 0) ^ 2 + (0.30225 - 0.25) ^ 2) / 0.05)
    with 1.045.
  - apply (takes_value_sound active_curve (1.045, 0.993333)%Q).
    vm_compute. reflexivity.
  - rewrite sin_0.
    replace ((0.05 * 0) ^ 2 + (0.30225 - 0.25) ^ 2) with (0.05225 ^ 2) by lra.
    rewrite sqrt_pow2 by lra. lra.
Qed.

Lemma active_force_sweep_monotone_witness :
  exists Fs : list R,
    cal_active_muscle_force_arr straight_muscle (Fin 0.30225)
      (map Fin (linspace01 200)) = Ret (map Fin Fs)
    /\ active_forces straight_muscle 0.30225 (linspace01 200) Fs
    /\ nondecreasing Fs.
Proof.
  apply (active_force_sweep_monotone straight_muscle 0.30225 0.993333
           (linspace01 200)).
  - simpl. lra.
  - apply straight_muscle_active_value.
  - simpl. lra.
  - apply linspace01_nondecreasing.
Defined.

(* ================================================================= *)
(** * Further properties *)

(** ** More on the activation *)

Lemma activation_formula_strict (a u1 u2 : R) :
  a <> 0 -> u1 < u2 -> activation_formula a u1 < activation_formula a u2.
Proof.
  intros Ha Hu. unfold activation_formula, Rdiv.
  destruct (Rlt_dec a 0) as [Hneg|Hpos].
  - assert (HD : exp a - 1 < 0).
    { pose proof (exp_increasing a 0 Hneg) as Hlt. rewrite exp_0 in Hlt. lra. }
    assert (HN : exp (a * u2) < exp (a * u1)) by (apply exp_increasing; nra).
    assert (Hinv : / (exp a - 1) < 0) by (apply Rinv_lt_0_compat; exact HD).
    nra.
  - assert (H0 : 0 < a) by lra.
    assert (HD : 0 < exp a - 1).
    { pose proof (exp_increasing 0 a H0) as Hlt. rewrite exp_0 in Hlt. lra. }
    assert (HN : exp (a * u1) < exp (a * u2)) by (apply exp_increasing; nra).
    assert (Hinv : 0 < / (exp a - 1)) by (apply Rinv_0_lt_compat; exact HD).
    nra.
Qed.

Lemma activation_formula_le (a u1 u2 : R) :
  a <> 0 -> u1 <= u2 -> activation_formula a u1 <= activation_formula a u2.
Proof.
  intros Ha [Hlt|Heq].
  - left. apply activation_formula_strict; assumption.
  - subst. lra.
Qed.

Lemma activation_formula_unit (a u : R) :
  a <> 0 -> 0 <= u <= 1 -> 0 <= activation_formula a u <= 1.
Proof.
  intros Ha [H0 H1]. split.
  - rewrite <- (activation_formula_0 a). apply activation_formula_le; assumption.
  - rewrite <- (activation_formula_1 a Ha). apply activation_formula_le; assumption.
Qed.

Lemma exp_tangent (x : R) : 1 + x <= exp x.
Proof.
  destruct (Req_dec x 0) as [->|Hx].
  - rewrite exp_0. lra.
  - left. apply exp_ineq1, Hx.
Qed.

(** The exponential lies below its chord on [0, 1]. *)
Lemma exp_chord (a u : R) :
  0 <= u <= 1 -> exp (a * u) <= 1 + u * (exp a - 1).
Proof.
  intros [H0 H1].
  pose proof (exp_pos (a * u)) as HE.
  assert (T0 : exp (a * u) * (1 - a * u) <= 1).
  { pose proof (exp_tangent (0 - a * u)) as T.
    apply (Rmult_le_compat_l (exp (a * u))) in T; [|lra].
    rewrite <- exp_plus in T.
    replace (a * u + (0 - a * u)) with 0 in T by ring.
    rewrite exp_0 in T. lra. }
  assert (T1 : exp (a * u) * (1 + a - a * u) <= exp a).
  { pose proof (exp_tangent (a - a * u)) as T.
    apply (Rmult_le_compat_l (exp (a * u))) in T; [|lra].
    rewrite <- exp_plus in T.
    replace (a * u + (a - a * u)) with a in T by ring. lra. }
  assert (P0 : 0 <= (1 - u) * (1 - exp (a * u) * (1 - a * u)))
    by (apply Rmult_le_pos; lra).
  assert (P1 : 0 <= u * (exp a - exp (a * u) * (1 + a - a * u)))
    by (apply Rmult_le_pos; lra).
  nra.
Qed.

Lemma activation_formula_above (a u : R) :
  a < 0 -> 0 <= u <= 1 -> u <= activation_formula a u.
Proof.
  intros Ha Hu. unfold activation_formula.
  assert (HD : exp a - 1 < 0).
  { pose proof (exp_increasing a 0 Ha) as Hlt. rewrite exp_0 in Hlt. lra. }
  pose proof (exp_chord a u Hu) as Hc.
  assert (Hinv : / (exp a - 1) < 0) by (apply Rinv_lt_0_compat; exact HD).
  replace u with (u * (exp a - 1) * / (exp a - 1)) at 1 by (field; lra).
  unfold Rdiv.
  assert (0 <= (u * (exp a - 1) - (exp (a * u) - 1)) * - / (exp a - 1))
    by (apply Rmult_le_pos; lra).
  lra.
Qed.

Lemma activation_formula_below (a u : R) :
  0 < a -> 0 <= u <= 1 -> activation_formula a u <= u.
Proof.
  intros Ha Hu. unfold activation_formula.
  assert (HD : 0 < exp a - 1).
  { pose proof (exp_increasing 0 a Ha) as Hlt. rewrite exp_0 in Hlt. lra. }
  pose proof (exp_chord a u Hu) as Hc.
  assert (Hinv : 0 < / (exp a - 1)) by (apply Rinv_0_lt_compat; exact HD).
  replace u with (u * (exp a - 1) * / (exp a - 1)) at 2 by (field; lra).
  unfold Rdiv.
  assert (0 <= (u * (exp a - 1) - (exp (a * u) - 1)) * / (exp a - 1))
    by (apply Rmult_le_pos; lra).
  lra.
Qed.

(** X1. For every non-zero shape factor, negative or positive, the
    activation is strictly increasing in the excitation. *)
Theorem cal_muscle_activation_strictly_increasing
        (self : Hill_type_muscle) (u1 u2 : R) :
  A self <> 0 -> u1 < u2 ->
  exists a1 a2 : R,
    cal_muscle_activation self (Fin u1) = Fin a1
    /\ cal_muscle_activation self (Fin u2) = Fin a2
    /\ a1 < a2.
Proof.
  intros Ha Hu.
  exists (activation_formula (A self) u1), (activation_formula (A self) u2).
  rewrite !cal_muscle_activation_fin by exact Ha.
  repeat split. apply activation_formula_strict; assumption.
Qed.

Lemma cal_muscle_activation_strictly_increasing_witness :
  exists a1 a2 : R,
    cal_muscle_activation convex_muscle (Fin 0.25) = Fin a1
    /\ cal_muscle_activation convex_muscle (Fin 0.75) = Fin a2
    /\ a1 < a2.
Proof.
  apply (cal_muscle_activation_strictly_increasing convex_muscle 0.25 0.75).
  - simpl. lra.
  - lra.
Defined.

(** X2. For every non-zero shape factor the activation of [u] is in
    [0, 1] exactly when [u] is in [0, 1]. *)
Theorem cal_muscle_activation_unit_interval (self : Hill_type_muscle) (u : R) :
  A self <> 0 ->
  exists a : R,
    cal_muscle_activation self (Fin u) = Fin a
    /\ (0 <= u <= 1 <-> 0 <= a <= 1).
Proof.
  intros Ha. exists (activation_formula (A self) u).
  split; [apply cal_muscle_activation_fin, Ha|].
  split; [apply activation_formula_unit, Ha|].
  intros [H0 H1]. split.
  - destruct (Rle_dec 0 u) as [|Hn]; [assumption|]. exfalso.
    assert (Hlt : u < 0) by lra.
    apply (activation_formula_strict (A self) u 0 Ha) in Hlt.
    rewrite activation_formula_0 in Hlt. lra.
  - destruct (Rle_dec u 1) as [|Hn]; [assumption|]. exfalso.
    assert (Hlt : 1 < u) by lra.
    apply (activation_formula_strict (A self) 1 u Ha) in Hlt.
    rewrite activation_formula_1 in Hlt by exact Ha. lra.
Qed.

Lemma cal_muscle_activation_unit_interval_witness :
  exists a : R,
    cal_muscle_activation default_muscle (Fin 0.5) = Fin a
    /\ (0 <= 0.5 <= 1 <-> 0 <= a <= 1).
Proof.
  apply (cal_muscle_activation_unit_interval default_muscle 0.5).
  simpl. lra.
Defined.

(** X3. On [0, 1] the activation is at least the excitation when the shape
    factor is negative, and at most the excitation when it is positive. *)
Theorem cal_muscle_activation_vs_excitation (self : Hill_type_muscle) (u : R) :
  A self <> 0 -> 0 <= u <= 1 ->
  exists a : R,
    cal_muscle_activation self (Fin u) = Fin a
    /\ (A self < 0 -> u <= a)
    /\ (0 < A self -> a <= u).
Proof.
  intros Ha Hu. exists (activation_formula (A self) u).
  split; [apply cal_muscle_activation_fin, Ha|]. split.
  - intros Hneg. apply activation_formula_above; assumption.
  - intros Hpos. apply activation_formula_below; assumption.
Qed.

Lemma cal_muscle_activation_vs_excitation_witness :
  exists a : R,
    cal_muscle_activation default_muscle (Fin 0.5) = Fin a
    /\ (A default_muscle < 0 -> 0.5 <= a)
    /\ (0 < A default_muscle -> a <= 0.5).
Proof.
  apply (cal_muscle_activation_vs_excitation default_muscle 0.5).
  - simpl. lra.
  - lra.
Defined.

(** ** Forces from the two force-length values *)

Lemma cal_passive_muscle_force_fin self (l_mt f_pm : R) :
  get_passive_force_length_value self (Fin l_mt) = Ret (Fin f_pm) ->
  cal_passive_muscle_force self (Fin l_mt) = Ret (Fin (f_pm * F_0 self)).
Proof.
  intros Hf. unfold cal_passive_muscle_force. rewrite Hf. reflexivity.
Qed.

Lemma cal_muscle_fiber_force_fin self (l_mt u f_am f_pm : R) :
  A self <> 0 ->
  get_active_force_length_value self (Fin l_mt) = Ret (Fin f_am) ->
  get_passive_force_length_value self (Fin l_mt) = Ret (Fin f_pm) ->
  cal_muscle_fiber_force self (Fin l_mt) (Fin u)
  = Ret (Fin (f_am * F_0 self
              * activation_formula (A self) (activation_formula (A self) u)
              + f_pm * F_0 self)).
Proof.
  intros Ha Hfa Hfp. unfold cal_muscle_fiber_force.
  rewrite cal_muscle_activation_fin by exact Ha.
  rewrite (cal_active_muscle_force_fin self l_mt f_am _ Ha Hfa). cbn [bind].
  rewrite (cal_passive_muscle_force_fin self l_mt f_pm Hfp). reflexivity.
Qed.

Lemma straight_muscle_passive_value :
  get_passive_force_length_value straight_muscle (Fin 0.30225)
  = Ret (Fin (passive_curve_value 1.045)).
Proof.
  apply get_passive_force_length_value_in_domain; [|lra].
  rewrite cal_normalized_muscle_fiber_length_fin by (simpl; lra).
  simpl l_0. simpl phi_0. simpl l_t. f_equal. rewrite sin_0.
  replace ((0.05 * 0) ^ 2 + (0.30225 - 0.25) ^ 2) with (0.05225 ^ 2) by lra.
  rewrite sqrt_pow2 by lra. lra.
Qed.

(** X4. In the curve domain, with a non-zero shape factor, the total force
    at excitation 0 is the passive force alone, and at excitation 1 it is
    the active force at excitation 1 plus the passive force: applying the
    activation twice changes nothing at the two ends. *)
Theorem cal_muscle_fiber_force_at_rest_and_full
        (self : Hill_type_muscle) (l_mt : R) :
  A self <> 0 ->
  in_curve_domain self l_mt ->
  exists F_A1 F_P : R,
    cal_passive_muscle_force self (Fin l_mt) = Ret (Fin F_P)
    /\ cal_active_muscle_force self (Fin l_mt) (Fin 1) = Ret (Fin F_A1)
    /\ cal_muscle_fiber_force self (Fin l_mt) (Fin 0) = Ret (Fin F_P)
    /\ cal_muscle_fiber_force self (Fin l_mt) (Fin 1) = Ret (Fin (F_A1 + F_P)).
Proof.
  intros Ha (l_hat & Hn & Hr).
  pose proof (get_active_force_length_value_in_domain self l_mt l_hat Hn Hr) as Hfa.
  pose proof (get_passive_force_length_value_in_domain self l_mt l_hat Hn Hr) as Hfp.
  exists (active_curve_value l_hat * F_0 self * activation_formula (A self) 1),
         (passive_curve_value l_hat * F_0 self).
  split; [apply cal_passive_muscle_force_fin, Hfp|].
  split; [apply cal_active_muscle_force_fin; assumption|].
  pose proof (cal_muscle_fiber_force_fin self l_mt 0 _ _ Ha Hfa Hfp) as H0.
  pose proof (cal_muscle_fiber_force_fin self l_mt 1 _ _ Ha Hfa Hfp) as H1.
  rewrite activation_formula_0, activation_formula_0 in H0.
  rewrite !activation_formula_1 in H1 by exact Ha.
  rewrite activation_formula_1 by exact Ha.
  split.
  - rewrite H0. do 2 f_equal. ring.
  - exact H1.
Qed.

Lemma cal_muscle_fiber_force_at_rest_and_full_witness :
  exists F_A1 F_P : R,
    cal_passive_muscle_force default_muscle (Fin 0.31) = Ret (Fin F_P)
    /\ cal_active_muscle_force default_muscle (Fin 0.31) (Fin 1) = Ret (Fin F_A1)
    /\ cal_muscle_fiber_force default_muscle (Fin 0.31) (Fin 0) = Ret (Fin F_P)
    /\ cal_muscle_fiber_force default_muscle (Fin 0.31) (Fin 1)
       = Ret (Fin (F_A1 + F_P)).
Proof.
  apply (cal_muscle_fiber_force_at_rest_and_full default_muscle 0.31).
  - simpl. lra.
  - apply default_muscle_in_curve_domain. lra.
Defined.

(** X5. For an excitation in [0, 1], a non-zero shape factor and a
    non-negative product of the active force-length value and [F_0], the
    total force lies between the passive force and the passive force plus
    the full active force; with a negative shape factor it is at least the
    active force plus the passive force, with a positive one at most. *)
Theorem cal_muscle_fiber_force_vs_sum
        (self : Hill_type_muscle) (l_mt u f_am f_pm : R) :
  A self <> 0 -> 0 <= u <= 1 ->
  get_active_force_length_value self (Fin l_mt) = Ret (Fin f_am) ->
  get_passive_force_length_value self (Fin l_mt) = Ret (Fin f_pm) ->
  0 <= f_am * F_0 self ->
  exists F F_A F_P : R,
    cal_muscle_fiber_force self (Fin l_mt) (Fin u) = Ret (Fin F)
    /\ cal_active_muscle_force self (Fin l_mt) (Fin u) = Ret (Fin F_A)
    /\ cal_passive_muscle_force self (Fin l_mt) = Ret (Fin F_P)
    /\ F_P <= F <= f_am * F_0 self + F_P
    /\ (A self < 0 -> F_A + F_P <= F)
    /\ (0 < A self -> F <= F_A + F_P).
Proof.
  intros Ha Hu Hfa Hfp Hpos.
  eexists _, _, _.
  split; [apply cal_muscle_fiber_force_fin; eassumption|].
  split; [apply cal_active_muscle_force_fin; eassumption|].
  split; [apply cal_passive_muscle_force_fin; eassumption|].
  pose proof (activation_formula_unit (A self) u Ha Hu) as Ha1.
  pose proof (activation_formula_unit (A self) _ Ha Ha1) as Ha2.
  set (a := activation_formula (A self) u) in *.
  set (aa := activation_formula (A self) a) in *.
  split; [nra|]. split.
  - intros Hneg.
    pose proof (activation_formula_above (A self) a Hneg Ha1). fold aa in H. nra.
  - intros Hp.
    pose proof (activation_formula_below (A self) a Hp Ha1). fold aa in H. nra.
Qed.

Lemma cal_muscle_fiber_force_vs_sum_witness :
  exists F F_A F_P : R,
    cal_muscle_fiber_force straight_muscle (Fin 0.30225) (Fin 0.5) = Ret (Fin F)
    /\ cal_active_muscle_force straight_muscle (Fin 0.30225) (Fin 0.5)
       = Ret (Fin F_A)
    /\ cal_passive_muscle_force straight_muscle (Fin 0.30225) = Ret (Fin F_P)
    /\ F_P <= F <= 0.993333 * F_0 straight_muscle + F_P
    /\ (A straight_muscle < 0 -> F_A + F_P <= F)
    /\ (0 < A straight_muscle -> F <= F_A + F_P).
Proof.
  apply (cal_muscle_fiber_force_vs_sum straight_muscle 0.30225 0.5 0.993333
           (passive_curve_value 1.045)).
  - simpl. lra.
  - lra.
  - apply straight_muscle_active_value.
  - apply straight_muscle_passive_value.
  - simpl. lra.
Defined.

(** ** More on the geometry *)

Lemma sqrt_sum_squares_bounds (c d : R) :
  Rabs d <= sqrt (c ^ 2 + d ^ 2) <= Rabs d + Rabs c.
Proof.
  pose proof (Rabs_pos c) as Hc. pose proof (Rabs_pos d) as Hd.
  pose proof (pow2_abs c) as Hc2. pose proof (pow2_abs d) as Hd2.
  pose proof (pow2_ge_0 c) as Hc0.
  apply sqrt_between; try lra.
  assert (0 <= Rabs d * Rabs c) by (apply Rmult_le_pos; assumption).
  split; [lra|].
  replace ((Rabs d + Rabs c) ^ 2)
    with (Rabs d ^ 2 + Rabs c ^ 2 + 2 * (Rabs d * Rabs c)) by ring.
  lra.
Qed.

(** X6. The fibre length differs from the distance [|l_mt - l_t|] by at
    most [|l_0 * sin(phi_0)|], and is never below that distance. *)
Theorem cal_muscle_fiber_length_bounds (self : Hill_type_muscle) (l_mt : R) :
  exists l_m : R,
    cal_muscle_fiber_length self (Fin l_mt) = Fin l_m
    /\ Rabs (l_mt - l_t self) <= l_m
    /\ l_m <= Rabs (l_mt - l_t self) + Rabs (l_0 self * sin (phi_0 self)).
Proof.
  eexists. split; [apply cal_muscle_fiber_length_fin|].
  apply sqrt_sum_squares_bounds.
Qed.

(** X7. The fibre length depends on [l_mt] only through the distance to
    the tendon length: it is the same on both sides of [l_t], and it grows
    with the distance. *)
Theorem cal_muscle_fiber_length_symmetric_monotone
        (self : Hill_type_muscle) (d1 d2 : R) :
  Rabs d1 <= Rabs d2 ->
  exists m1 m2 : R,
    cal_muscle_fiber_length self (Fin (l_t self + d1)) = Fin m1
    /\ cal_muscle_fiber_length self (Fin (l_t self - d1)) = Fin m1
    /\ cal_muscle_fiber_length self (Fin (l_t self + d2)) = Fin m2
    /\ m1 <= m2.
Proof.
  intros Hd.
  exists (sqrt ((l_0 self * sin (phi_0 self)) ^ 2 + d1 ^ 2)),
         (sqrt ((l_0 self * sin (phi_0 self)) ^ 2 + d2 ^ 2)).
  rewrite !cal_muscle_fiber_length_fin.
  repeat split.
  - do 2 f_equal. ring.
  - do 2 f_equal. ring.
  - do 2 f_equal. ring.
  - apply sqrt_le_1_alt.
    assert (d1 ^ 2 <= d2 ^ 2).
    { rewrite <- (pow2_abs d1), <- (pow2_abs d2).
      pose proof (Rabs_pos d1). nra. }
    lra.
Qed.

Lemma cal_muscle_fiber_length_symmetric_monotone_witness :
  exists m1 m2 : R,
    cal_muscle_fiber_length default_muscle (Fin (l_t default_muscle + 0.05)) = Fin m1
    /\ cal_muscle_fiber_length default_muscle (Fin (l_t default_muscle - 0.05)) = Fin m1
    /\ cal_muscle_fiber_length default_muscle (Fin (l_t default_muscle + 0.07)) = Fin m2
    /\ m1 <= m2.
Proof.
  apply (cal_muscle_fiber_length_symmetric_monotone default_muscle 0.05 0.07).
  rewrite !Rabs_pos_eq by lra. lra.
Defined.

(** ** The two force-length values outside the good cases *)

Lemma force_length_values_raise self (l_mt : npfloat) :
  match cal_normalized_muscle_fiber_length self l_mt with
  | Fin l_hat => l_hat < -5 \/ 5 < l_hat
  | Inf _ => True
  | NaN => False
  end ->
  get_active_force_length_value self l_mt = Raise ValueError
  /\ get_passive_force_length_value self l_mt = Raise ValueError.
Proof.
  unfold get_active_force_length_value, get_passive_force_length_value.
  rewrite get_active_force_length_function_eq,
          get_passive_force_length_function_eq.
  cbn [bind].
  destruct (cal_normalized_muscle_fiber_length self l_mt)
    as [l_hat|s|]; intros Hout.
  - split; apply interp1d_call_out_of_range.
    + destruct active_curve_range as [-> ->]. exact Hout.
    + destruct passive_curve_range as [-> ->]. exact Hout.
  - split; reflexivity.
  - contradiction.
Qed.

Lemma force_length_values_nan self (l_mt : npfloat) :
  cal_normalized_muscle_fiber_length self l_mt = NaN ->
  get_active_force_length_value self l_mt = Ret NaN
  /\ get_passive_force_length_value self l_mt = Ret NaN.
Proof.
  intros Hn.
  unfold get_active_force_length_value, get_passive_force_length_value.
  rewrite get_active_force_length_function_eq,
          get_passive_force_length_function_eq.
  cbn [bind]. rewrite Hn. split; reflexivity.
Qed.

(** X8. With [l_0 = 0] the normalised length is a division by zero: at
    [l_mt = l_t] it is nan and both force-length values come back as nan
    without an error; at any other length it is +inf and both lookups
    raise ValueError. *)
Theorem zero_optimal_length_force_length_values
        (self : Hill_type_muscle) (l_mt : R) :
  l_0 self = 0 ->
  (l_mt = l_t self ->
   cal_normalized_muscle_fiber_length self (Fin l_mt) = NaN
   /\ get_active_force_length_value self (Fin l_mt) = Ret NaN
   /\ get_passive_force_length_value self (Fin l_mt) = Ret NaN)
  /\ (l_mt <> l_t self ->
      cal_normalized_muscle_fiber_length self (Fin l_mt) = Inf false
      /\ get_active_force_length_value self (Fin l_mt) = Raise ValueError
      /\ get_passive_force_length_value self (Fin l_mt) = Raise ValueError).
Proof.
  intros Hl0.
  assert (Hlen : cal_muscle_fiber_length self (Fin l_mt)
                 = Fin (Rabs (l_mt - l_t self))).
  { rewrite cal_muscle_fiber_length_fin. f_equal.
    rewrite <- sqrt_Rsqr_abs. f_equal. rewrite Hl0. unfold Rsqr. ring. }
  split.
  - intros Heq.
    assert (Hn : cal_normalized_muscle_fiber_length self (Fin l_mt) = NaN).
    { unfold cal_normalized_muscle_fiber_length. rewrite Hlen, Hl0. cbn [np_div].
      destruct (Req_dec_T 0 0) as [_|Hn]; [|lra].
      destruct (Req_dec_T _ 0) as [_|Hn]; [reflexivity|].
      exfalso. apply Hn. subst l_mt. rewrite Rminus_diag. apply Rabs_R0. }
    split; [exact Hn|]. apply force_length_values_nan, Hn.
  - intros Hne.
    assert (Hn : cal_normalized_muscle_fiber_length self (Fin l_mt) = Inf false).
    { unfold cal_normalized_muscle_fiber_length. rewrite Hlen, Hl0. cbn [np_div].
      assert (Hpos : 0 < Rabs (l_mt - l_t self)) by (apply Rabs_pos_lt; lra).
      destruct (Req_dec_T 0 0) as [_|Hn]; [|lra].
      destruct (Req_dec_T _ 0) as [Hz|_]; [lra|].
      unfold Rsign_neg. destruct (Rlt_dec _ 0) as [Hlt|_]; [lra|reflexivity]. }
    split; [exact Hn|]. apply force_length_values_raise. rewrite Hn. exact I.
Qed.

Lemma zero_optimal_length_force_length_values_witness :
  (cal_normalized_muscle_fiber_length degenerate_muscle (Fin 0.25) = NaN
   /\ get_active_force_length_value degenerate_muscle (Fin 0.25) = Ret NaN
   /\ get_passive_force_length_value degenerate_muscle (Fin 0.25) = Ret NaN)
  /\ (cal_normalized_muscle_fiber_length degenerate_muscle (Fin 0.30) = Inf false
      /\ get_active_force_length_value degenerate_muscle (Fin 0.30)
         = Raise ValueError
      /\ get_passive_force_length_value degenerate_muscle (Fin 0.30)
         = Raise ValueError).
Proof.
  split.
  - apply (proj1 (zero_optimal_length_force_length_values degenerate_muscle 0.25
                    eq_refl)).
    reflexivity.
  - apply (proj2 (zero_optimal_length_force_length_values degenerate_muscle 0.30
                    eq_refl)).
    simpl. lra.
Defined.

(** X9. For a positive optimal fibre length the normalised length is at
    least [|sin(phi_0)|], so it never falls below the table; the two
    force-length values are returned as finite numbers exactly when
    [(l_mt - l_t)^2 <= l_0^2 * (25 - sin(phi_0)^2)], and both lookups raise
    ValueError otherwise. *)
Theorem force_length_value_domain (self : Hill_type_muscle) (l_mt : R) :
  0 < l_0 self ->
  exists l_hat : R,
    cal_normalized_muscle_fiber_length self (Fin l_mt) = Fin l_hat
    /\ Rabs (sin (phi_0 self)) <= l_hat
    /\ ((l_mt - l_t self) ^ 2 <= l_0 self ^ 2 * (25 - sin (phi_0 self) ^ 2) ->
        get_active_force_length_value self (Fin l_mt)
        = Ret (Fin (active_curve_value l_hat))
        /\ get_passive_force_length_value self (Fin l_mt)
           = Ret (Fin (passive_curve_value l_hat)))
    /\ (l_0 self ^ 2 * (25 - sin (phi_0 self) ^ 2) < (l_mt - l_t self) ^ 2 ->
        get_active_force_length_value self (Fin l_mt) = Raise ValueError
        /\ get_passive_force_length_value self (Fin l_mt) = Raise ValueError).
Proof.
  intros Hl0.
  set (s := (l_0 self * sin (phi_0 self)) ^ 2 + (l_mt - l_t self) ^ 2).
  assert (Hn : cal_normalized_muscle_fiber_length self (Fin l_mt)
               = Fin (sqrt s / l_0 self))
    by (apply cal_normalized_muscle_fiber_length_fin; lra).
  assert (Hs : s = l_0 self ^ 2 * sin (phi_0 self) ^ 2 + (l_mt - l_t self) ^ 2)
    by (unfold s; ring).
  assert (Hinv : 0 < / l_0 self) by (apply Rinv_0_lt_compat, Hl0).
  exists (sqrt s / l_0 self). split; [exact Hn|]. split; [|split].
  - assert (Hlow : l_0 self * Rabs (sin (phi_0 self)) <= sqrt s).
    { rewrite <- (sqrt_pow2 (l_0 self * Rabs (sin (phi_0 self)))).
      - apply sqrt_le_1_alt. rewrite Hs, Rpow_mult_distr, pow2_abs.
        pose proof (pow2_ge_0 (l_mt - l_t self)). lra.
      - apply Rmult_le_pos; [lra|apply Rabs_pos]. }
    unfold Rdiv.
    replace (Rabs (sin (phi_0 self)))
      with (l_0 self * Rabs (sin (phi_0 self)) * / l_0 self) by (field; lra).
    apply Rmult_le_compat_r; lra.
  - intros Hin.
    assert (Hb : 0 <= sqrt s <= 5 * l_0 self).
    { apply sqrt_between; try lra.
      rewrite Hs, Rpow_mult_distr. split; [|lra].
      pose proof (pow2_ge_0 (l_0 self * sin (phi_0 self))).
      pose proof (pow2_ge_0 (l_mt - l_t self)).
      rewrite Rpow_mult_distr in H. lra. }
    assert (Hr : -5 <= sqrt s / l_0 self <= 5).
    { unfold Rdiv. split.
      - assert (0 <= sqrt s * / l_0 self) by (apply Rmult_le_pos; lra). lra.
      - replace 5 with (5 * l_0 self * / l_0 self) by (field; lra).
        apply Rmult_le_compat_r; lra. }
    split.
    + apply get_active_force_length_value_in_domain; assumption.
    + apply get_passive_force_length_value_in_domain; assumption.
  - intros Hout. apply force_length_values_raise. rewrite Hn. right.
    assert (Hb : 5 * l_0 self < sqrt s).
    { rewrite <- (sqrt_pow2 (5 * l_0 self)) by lra.
      apply sqrt_lt_1_alt. rewrite Hs, Rpow_mult_distr.
      split; [apply Rmult_le_pos; [lra|apply pow2_ge_0]|lra]. }
    unfold Rdiv.
    replace 5 with (5 * l_0 self * / l_0 self) by (field; lra).
    apply Rmult_lt_compat_r; lra.
Qed.

Lemma force_length_value_domain_witness :
  exists l_hat : R,
    cal_normalized_muscle_fiber_length default_muscle (Fin 0.30) = Fin l_hat
    /\ Rabs (sin (phi_0 default_muscle)) <= l_hat
    /\ ((0.30 - l_t default_muscle) ^ 2
        <= l_0 default_muscle ^ 2 * (25 - sin (phi_0 default_muscle) ^ 2) ->
        get_active_force_length_value default_muscle (Fin 0.30)
        = Ret (Fin (active_curve_value l_hat))
        /\ get_passive_force_length_value default_muscle (Fin 0.30)
           = Ret (Fin (passive_curve_value l_hat)))
    /\ (l_0 default_muscle ^ 2 * (25 - sin (phi_0 default_muscle) ^ 2)
        < (0.30 - l_t default_muscle) ^ 2 ->
        get_active_force_length_value default_muscle (Fin 0.30) = Raise ValueError
        /\ get_passive_force_length_value default_muscle (Fin 0.30)
           = Raise ValueError).
Proof.
  apply (force_length_value_domain default_muscle 0.30).
  simpl. lra.
Defined.

(** ** Errors and nan in the force methods *)

(** X10. When the normalised length is outside the tabulated range, every
    force method raises ValueError, whatever the excitation (a number, an
    infinity, nan, or an array) and whatever the shape factor, zero
    included. *)
Theorem forces_raise_out_of_domain (self : Hill_type_muscle) (l_mt : R) :
  out_of_curve_domain self l_mt ->
  forall (u : npfloat) (us : list npfloat),
    cal_active_muscle_force self (Fin l_mt) u = Raise ValueError
    /\ cal_passive_muscle_force self (Fin l_mt) = Raise ValueError
    /\ cal_muscle_fiber_force self (Fin l_mt) u = Raise ValueError
    /\ cal_active_muscle_force_arr self (Fin l_mt) us = Raise ValueError
    /\ cal_muscle_fiber_force_arr self (Fin l_mt) us = Raise ValueError.
Proof.
  intros Hout u us.
  destruct (force_length_values_raise self (Fin l_mt) Hout) as [Ha Hp].
  unfold cal_muscle_fiber_force_arr, cal_muscle_fiber_force,
    cal_active_muscle_force_arr, cal_active_muscle_force,
    cal_passive_muscle_force.
  rewrite Ha, Hp. repeat split.
Qed.

Lemma forces_raise_out_of_domain_witness :
  cal_active_muscle_force default_muscle (Fin 1) NaN = Raise ValueError
  /\ cal_passive_muscle_force default_muscle (Fin 1) = Raise ValueError
  /\ cal_muscle_fiber_force default_muscle (Fin 1) NaN = Raise ValueError
  /\ cal_active_muscle_force_arr default_muscle (Fin 1) [Fin 0; Fin 1]
     = Raise ValueError
  /\ cal_muscle_fiber_force_arr default_muscle (Fin 1) [Fin 0; Fin 1]
     = Raise ValueError.
Proof.
  apply (forces_raise_out_of_domain default_muscle 1).
  unfold out_of_curve_domain.
  rewrite cal_normalized_muscle_fiber_length_fin by (simpl; lra).
  right. simpl l_0. simpl phi_0. simpl l_t.
  assert (Hb : 0.75 <= sqrt ((0.05 * sin 0.2) ^ 2 + (1 - 0.25) ^ 2)).
  { rewrite <- (sqrt_pow2 0.75) at 1 by lra. apply sqrt_le_1_alt.
    pose proof (pow2_ge_0 (0.05 * sin 0.2)). lra. }
  lra.
Defined.

(** X11. With a zero shape factor and [l_mt] in the curve domain, the
    active force and the total force are nan for every real excitation and
    nothing is raised; the passive force is still a finite number. *)
Theorem zero_shape_factor_forces (self : Hill_type_muscle) (l_mt u : R) :
  A self = 0 ->
  in_curve_domain self l_mt ->
  cal_active_muscle_force self (Fin l_mt) (Fin u) = Ret NaN
  /\ cal_muscle_fiber_force self (Fin l_mt) (Fin u) = Ret NaN
  /\ exists F_P : R, cal_passive_muscle_force self (Fin l_mt) = Ret (Fin F_P).
Proof.
  intros Ha (l_hat & Hn & Hr).
  pose proof (get_active_force_length_value_in_domain self l_mt l_hat Hn Hr) as Hfa.
  pose proof (get_passive_force_length_value_in_domain self l_mt l_hat Hn Hr) as Hfp.
  assert (Hnan : cal_muscle_activation self NaN = NaN) by reflexivity.
  unfold cal_muscle_fiber_force, cal_active_muscle_force.
  rewrite (cal_muscle_activation_nan self u Ha), Hnan, Hfa. cbn [bind].
  rewrite (cal_passive_muscle_force_fin self l_mt _ Hfp).
  repeat split. eexists. reflexivity.
Qed.

Lemma zero_shape_factor_forces_witness :
  cal_active_muscle_force flat_muscle (Fin 0.30) (Fin 0.5) = Ret NaN
  /\ cal_muscle_fiber_force flat_muscle (Fin 0.30) (Fin 0.5) = Ret NaN
  /\ exists F_P : R, cal_passive_muscle_force flat_muscle (Fin 0.30) = Ret (Fin F_P).
Proof.
  apply (zero_shape_factor_forces flat_muscle 0.30 0.5).
  - reflexivity.
  - destruct (default_muscle_in_curve_domain 0.30) as (l_hat & Hn & Hr); [lra|].
    exists l_hat. split; [exact Hn | exact Hr].
Defined.

(** X12. A nan length goes through silently: the fibre length, the
    normalised length, both force-length values and all three forces are
    nan, for every parameter set and every excitation.  An infinite length
    makes both lookups and all three forces raise ValueError. *)
Theorem nonfinite_length_forces (self : Hill_type_muscle) (u : npfloat) :
  (cal_muscle_fiber_length self NaN = NaN
   /\ cal_normalized_muscle_fiber_length self NaN = NaN
   /\ get_active_force_length_value self NaN = Ret NaN
   /\ get_passive_force_length_value self NaN = Ret NaN
   /\ cal_active_muscle_force self NaN u = Ret NaN
   /\ cal_passive_muscle_force self NaN = Ret NaN
   /\ cal_muscle_fiber_force self NaN u = Ret NaN)
  /\ (forall s : bool,
      get_active_force_length_value self (Inf s) = Raise ValueError
      /\ get_passive_force_length_value self (Inf s) = Raise ValueError
      /\ cal_active_muscle_force self (Inf s) u = Raise ValueError
      /\ cal_passive_muscle_force self (Inf s) = Raise ValueError
      /\ cal_muscle_fiber_force self (Inf s) u = Raise ValueError).
Proof.
  split.
  - assert (Hn : cal_normalized_muscle_fiber_length self NaN = NaN) by reflexivity.
    destruct (force_length_values_nan self NaN Hn) as [Ha Hp].
    unfold cal_muscle_fiber_force, cal_active_muscle_force,
      cal_passive_muscle_force.
    rewrite Ha, Hp. cbn [bind np_mul np_add].
    repeat split; reflexivity.
  - intros s.
    assert (Hn : exists s', cal_normalized_muscle_fiber_length self (Inf s) = Inf s').
    { unfold cal_normalized_muscle_fiber_length, cal_muscle_fiber_length.
      destruct s; cbn; eexists; reflexivity. }
    destruct Hn as (s' & Hn).
    destruct (force_length_values_raise self (Inf s)) as [Ha Hp];
      [rewrite Hn; exact I|].
    unfold cal_muscle_fiber_force, cal_active_muscle_force,
      cal_passive_muscle_force.
    rewrite Ha, Hp. repeat split.
Qed.

(** ** Sweeps of the active and of the total force *)

Lemma Sorted_map_antitone (g : R -> R) :
  (forall a b : R, a <= b -> g a >= g b) ->
  forall l : list R, Sorted Rle l -> Sorted Rge (map g l).
Proof.
  intros Hg l Hs. induction Hs as [|a l Hs IH Hhd]; simpl; constructor.
  - exact IH.
  - destruct Hhd as [|b l Hab]; simpl; constructor. apply Hg, Hab.
Qed.

Lemma cal_muscle_activation_arr_fin self (us : list R) :
  A self <> 0 ->
  cal_muscle_activation_arr self (map Fin us)
  = map Fin (map (activation_formula (A self)) us).
Proof.
  intros Ha. unfold cal_muscle_activation_arr. rewrite !map_map.
  apply map_ext. intros u. apply cal_muscle_activation_fin, Ha.
Qed.

Lemma cal_muscle_fiber_force_arr_fin self (l_mt f_am f_pm : R) (us : list R) :
  A self <> 0 ->
  get_active_force_length_value self (Fin l_mt) = Ret (Fin f_am) ->
  get_passive_force_length_value self (Fin l_mt) = Ret (Fin f_pm) ->
  cal_muscle_fiber_force_arr self (Fin l_mt) (map Fin us)
  = Ret (map Fin
           (map (fun u => f_am * F_0 self
                          * activation_formula (A self)
                              (activation_formula (A self) u)
                          + f_pm * F_0 self) us)).
Proof.
  intros Ha Hfa Hfp. unfold cal_muscle_fiber_force_arr.
  rewrite cal_muscle_activation_arr_fin by exact Ha.
  rewrite (cal_active_muscle_force_arr_fin self l_mt f_am _ Ha Hfa). cbn [bind].
  rewrite (cal_passive_muscle_force_fin self l_mt f_pm Hfp). cbn [bind].
  f_equal. rewrite !map_map. apply map_ext. intros u. reflexivity.
Qed.

Lemma Forall2_length_eq {X Y : Type} (P : X -> Y -> Prop) l l' :
  Forall2 P l l' -> length l' = length l.
Proof. intros H. induction H; simpl; congruence. Qed.

(** X13. For a non-zero shape factor and [l_mt] in the curve domain, the
    array call of [cal_active_muscle_force] returns, element by element,
    what the scalar calls return; over a non-decreasing sequence of
    excitations the forces are non-decreasing when the active force-length
    value times [F_0] is not negative, and non-increasing when it is not
    positive. *)
Theorem active_force_sweep_direction
        (self : Hill_type_muscle) (l_mt f_am : R) (us : list R) :
  A self <> 0 ->
  get_active_force_length_value self (Fin l_mt) = Ret (Fin f_am) ->
  nondecreasing us ->
  exists Fs : list R,
    cal_active_muscle_force_arr self (Fin l_mt) (map Fin us) = Ret (map Fin Fs)
    /\ active_forces self l_mt us Fs
    /\ (0 <= f_am * F_0 self -> nondecreasing Fs)
    /\ (f_am * F_0 self <= 0 -> nonincreasing Fs).
Proof.
  intros Ha Hf Hus.
  eexists. split; [apply cal_active_muscle_force_arr_fin; eassumption|].
  split; [|split].
  - apply Forall2_map_r. intros u.
    apply cal_active_muscle_force_fin; assumption.
  - intros Hpos. apply Sorted_map_monotone; [|exact Hus].
    intros a b Hab. apply Rmult_le_compat_l; [exact Hpos|].
    apply activation_formula_le; assumption.
  - intros Hneg. apply Sorted_map_antitone; [|exact Hus].
    intros a b Hab.
    pose proof (activation_formula_le (A self) a b Ha Hab). nra.
Qed.

Lemma active_force_sweep_direction_witness :
  exists Fs : list R,
    cal_active_muscle_force_arr straight_muscle (Fin 0.30225)
      (map Fin (linspace01 200)) = Ret (map Fin Fs)
    /\ active_forces straight_muscle 0.30225 (linspace01 200) Fs
    /\ (0 <= 0.993333 * F_0 straight_muscle -> nondecreasing Fs)
    /\ (0.993333 * F_0 straight_muscle <= 0 -> nonincreasing Fs).
Proof.
  apply (active_force_sweep_direction straight_muscle 0.30225 0.993333
           (linspace01 200)).
  - simpl. lra.
  - apply straight_muscle_active_value.
  - apply linspace01_nondecreasing.
Defined.

(** X14. For a non-zero shape factor and [l_mt] in the curve domain, the
    array call of [cal_muscle_fiber_force] returns one total force per
    excitation, each equal to what the scalar call returns; over a
    non-decreasing sequence of excitations the total forces are
    non-decreasing when the active force-length value times [F_0] is not
    negative, and non-increasing when it is not positive. *)
Theorem total_force_sweep
        (self : Hill_type_muscle) (l_mt f_am f_pm : R) (us : list R) :
  A self <> 0 ->
  get_active_force_length_value self (Fin l_mt) = Ret (Fin f_am) ->
  get_passive_force_length_value self (Fin l_mt) = Ret (Fin f_pm) ->
  nondecreasing us ->
  exists Fs : list R,
    cal_muscle_fiber_force_arr self (Fin l_mt) (map Fin us) = Ret (map Fin Fs)
    /\ total_forces self l_mt us Fs
    /\ length Fs = length us
    /\ (0 <= f_am * F_0 self -> nondecreasing Fs)
    /\ (f_am * F_0 self <= 0 -> nonincreasing Fs).
Proof.
  intros Ha Hfa Hfp Hus.
  assert (Hmono : forall a b, a <= b ->
            activation_formula (A self) (activation_formula (A self) a)
            <= activation_formula (A self) (activation_formula (A self) b)).
  { intros a b Hab. do 2 (apply activation_formula_le; [exact Ha|]). exact Hab. }
  eexists. split; [apply cal_muscle_fiber_force_arr_fin; eassumption|].
  split; [|split; [|split]].
  - apply Forall2_map_r. intros u.
    apply cal_muscle_fiber_force_fin; assumption.
  - apply length_map.
  - intros Hpos. apply Sorted_map_monotone; [|exact Hus].
    intros a b Hab. pose proof (Hmono a b Hab). nra.
  - intros Hneg. apply Sorted_map_antitone; [|exact Hus].
    intros a b Hab. pose proof (Hmono a b Hab). nra.
Qed.

Lemma total_force_sweep_witness :
  exists Fs : list R,
    cal_muscle_fiber_force_arr straight_muscle (Fin 0.30225)
      (map Fin (linspace01 200)) = Ret (map Fin Fs)
    /\ total_forces straight_muscle 0.30225 (linspace01 200) Fs
    /\ length Fs = length (linspace01 200)
    /\ (0 <= 0.993333 * F_0 straight_muscle -> nondecreasing Fs)
    /\ (0.993333 * F_0 straight_muscle <= 0 -> nonincreasing Fs).
Proof.
  apply (total_force_sweep straight_muscle 0.30225 0.993333
           (passive_curve_value 1.045) (linspace01 200)).
  - simpl. lra.
  - apply straight_muscle_active_value.
  - apply straight_muscle_passive_value.
  - apply linspace01_nondecreasing.
Defined.

(** ** The cubic a curve follows on a knot interval *)

Lemma find_interval_from_between (x : R) : forall ts1 tl ts2 l,
  Forall (fun a => Q2R a <= x) ts1 ->
  x < Q2R tl ->
  find_interval_from (ts1 ++ tl :: ts2) x l = (l + length ts1)%nat.
Proof.
  induction ts1 as [|a ts1 IH]; intros tl ts2 l Hall Hlt; simpl.
  - unfold Rleb. destruct (Rle_dec (Q2R tl) x) as [Hle|_]; [lra|lia].
  - inversion Hall as [|? ? Hle Hrest]; subst.
    unfold Rleb. destruct (Rle_dec (Q2R a) x) as [_|Hn]; [|contradiction].
    rewrite IH by assumption. lia.
Qed.

Lemma split_at_nth (l : list Q) (i : nat) :
  (i < length l)%nat ->
  l = firstn i l ++ nth i l 0%Q :: skipn (S i) l.
Proof.
  revert i. induction l as [|a l IH]; intros i Hi; simpl in Hi; [lia|].
  destruct i as [|i]; [reflexivity|].
  cbn [firstn nth skipn app]. f_equal. apply IH. lia.
Qed.

Lemma all_below (lo : Q) (x : R) (l : list Q) :
  forallb (fun a => Qle_bool a lo) l = true ->
  Q2R lo <= x ->
  Forall (fun a => Q2R a <= x) l.
Proof.
  intros Hall Hx. apply Forall_forall. intros a Hin.
  rewrite forallb_forall in Hall. specialize (Hall a Hin).
  apply Qle_bool_iff, Qle_Rle in Hall. lra.
Qed.

(** Between two neighbouring knots the curve is the cubic of that
    interval. *)
Lemma curve_on_piece (f : interp1d_obj) (i : nat) (x : R) :
  let ik := interior_knots (bs_t (i_spline f)) (bs_k (i_spline f)) in
  (i < length ik)%nat ->
  Forall (fun a => Q2R a <= x) (firstn i ik) ->
  x < Q2R (nth i ik 0%Q) ->
  BSpline_call (i_spline f) x = peval (curve_piece f i) x.
Proof.
  intros ik Hi Hlo Hhi.
  unfold BSpline_call, evaluate_spline, curve_piece.
  rewrite spline_on_peval. f_equal. f_equal.
  unfold find_interval. fold (interior_knots (bs_t (i_spline f)) (bs_k (i_spline f))).
  fold ik. rewrite (split_at_nth ik i Hi).
  rewrite find_interval_from_between by assumption.
  rewrite length_firstn. lia.
Qed.

(** From the last knot on, the curve is the cubic of the last interval. *)
Lemma curve_on_last_piece (f : interp1d_obj) (x : R) :
  let ik := interior_knots (bs_t (i_spline f)) (bs_k (i_spline f)) in
  Forall (fun a => Q2R a <= x) ik ->
  BSpline_call (i_spline f) x = peval (curve_piece f (length ik)) x.
Proof.
  intros ik Hlo.
  unfold BSpline_call, evaluate_spline, curve_piece.
  rewrite spline_on_peval. f_equal. f_equal.
  unfold find_interval. fold (interior_knots (bs_t (i_spline f)) (bs_k (i_spline f))).
  fold ik. apply find_interval_from_all, Hlo.
Qed.

Lemma peval_cubic_with_roots (k r1 r2 r3 : Q) (x : R) :
  peval (cubic_with_roots k r1 r2 r3) x
  = Q2R k * ((x - Q2R r1) * ((x - Q2R r2) * (x - Q2R r3))).
Proof.
  unfold cubic_with_roots. rewrite !peval_pmul. cbn [peval].
  rewrite !Q2R_opp, RMicromega.Q2R_1. ring.
Qed.

(** *** The outer pieces of the two curves *)

Lemma active_first_piece_factors (x : R) :
  peval active_first_piece x
  = Q2R active_first_lead * ((x - -5) * ((x - 0) * (x - 0.401))).
Proof.
  rewrite (peval_ext x _ (cubic_with_roots active_first_lead (-5) 0 0.401))
    by (vm_compute; reflexivity).
  rewrite peval_cubic_with_roots.
  replace (Q2R (-5)) with (-5) by (unfold Q2R; simpl; lra).
  rewrite RMicromega.Q2R_0. reflexivity.
Qed.

Lemma passive_first_piece_factors (x : R) :
  peval passive_first_piece x
  = Q2R passive_first_lead * ((x - -5) * ((x - 0.998) * (x - 0.999))).
Proof.
  rewrite (peval_ext x _ (cubic_with_roots passive_first_lead (-5) 0.998 0.999))
    by (vm_compute; reflexivity).
  rewrite peval_cubic_with_roots.
  replace (Q2R (-5)) with (-5) by (unfold Q2R; simpl; lra).
  reflexivity.
Qed.

Lemma passive_last_piece_factors (x : R) :
  peval passive_last_piece x
  = 2 + Q2R passive_last_lead * ((x - 1.601) * ((x - 1.602) * (x - 5))).
Proof.
  rewrite (peval_ext x _ (padd [2%Q] (cubic_with_roots passive_last_lead 1.601 1.602 5)))
    by (vm_compute; reflexivity).
  rewrite peval_padd, peval_cubic_with_roots. cbn [peval].
  replace (Q2R 5) with 5 by (unfold Q2R; simpl; lra).
  replace (Q2R 2) with 2 by (unfold Q2R; simpl; lra).
  ring.
Qed.

Lemma active_first_lead_positive : 0 < Q2R active_first_lead.
Proof.
  rewrite <- RMicromega.Q2R_0. apply Qlt_Rlt. vm_compute. reflexivity.
Qed.

Lemma passive_first_lead_negative : Q2R passive_first_lead < 0.
Proof. apply Q2R_neg. vm_compute. reflexivity. Qed.

Lemma passive_last_lead_negative : Q2R passive_last_lead < 0.
Proof. apply Q2R_neg. vm_compute. reflexivity. Qed.

Lemma active_curve_value_first_piece (x : R) :
  x < 0.401 -> active_curve_value x = peval active_first_piece x.
Proof.
  intros Hx. unfold active_curve_value.
  rewrite (curve_on_piece active_curve 0 x).
  - f_equal.
  - vm_compute. lia.
  - constructor.
  - exact Hx.
Qed.

Lemma passive_curve_value_first_piece (x : R) :
  x < 0.999 -> passive_curve_value x = peval passive_first_piece x.
Proof.
  intros Hx. unfold passive_curve_value.
  rewrite (curve_on_piece passive_curve 0 x).
  - f_equal.
  - vm_compute. lia.
  - constructor.
  - exact Hx.
Qed.

Lemma passive_curve_value_last_piece (x : R) :
  1.601 <= x -> passive_curve_value x = peval passive_last_piece x.
Proof.
  intros Hx. unfold passive_curve_value.
  rewrite (curve_on_last_piece passive_curve x).
  - f_equal.
  - apply (all_below 1.601); [vm_compute; reflexivity | exact Hx].
Qed.

Lemma passive_curve_value_below_zero (x : R) :
  -5 < x < 0.998 -> passive_curve_value x < 0.
Proof.
  intros [H1 H2].
  rewrite passive_curve_value_first_piece by lra.
  rewrite passive_first_piece_factors.
  pose proof passive_first_lead_negative as Hk.
  assert (Hbc : 0 < (x - 0.998) * (x - 0.999)) by nra.
  assert (Habc : 0 < (x - -5) * ((x - 0.998) * (x - 0.999)))
    by (apply Rmult_lt_0_compat; lra).
  nra.
Qed.

Lemma passive_curve_value_above_two (x : R) :
  1.602 < x < 5 -> 2 < passive_curve_value x.
Proof.
  intros [H1 H2].
  rewrite passive_curve_value_last_piece by lra.
  rewrite passive_last_piece_factors.
  pose proof passive_last_lead_negative as Hk.
  assert (Hab : 0 < (x - 1.601) * (x - 1.602)) by nra.
  assert (Habc : (x - 1.601) * ((x - 1.602) * (x - 5)) < 0) by nra.
  nra.
Qed.

Lemma active_curve_value_low_dip (x : R) :
  0 < x < 0.401 -> active_curve_value x < 0.
Proof.
  intros [H1 H2].
  rewrite active_curve_value_first_piece by lra.
  rewrite active_first_piece_factors.
  pose proof active_first_lead_positive as Hk.
  assert (Hbc : (x - 0) * (x - 0.401) < 0) by nra.
  assert (Habc : (x - -5) * ((x - 0) * (x - 0.401)) < 0) by nra.
  nra.
Qed.

Lemma active_curve_value_tail_positive (x : R) :
  2.2 < x < 5 -> 0 < active_curve_value x.
Proof.
  intros [H1 H2].
  rewrite active_curve_value_last_piece by lra.
  rewrite active_last_piece_factors.
  pose proof active_last_lead_negative as Hk.
  assert (Hab : 0 < (x - 1.621) * (x - 2.2)) by nra.
  assert (Habc : (x - 1.621) * ((x - 2.2) * (x - 5)) < 0) by nra.
  nra.
Qed.

(** The default muscle near its tendon length: the normalised length is
    below 0.45. *)
Lemma default_muscle_normalized_length_short (l_mt : R) :
  0.23 <= l_mt <= 0.27 ->
  exists l_hat : R,
    cal_normalized_muscle_fiber_length default_muscle (Fin l_mt) = Fin l_hat
    /\ 0 <= l_hat < 0.45.
Proof.
  intros [H1 H2]. eexists. split.
  - apply cal_normalized_muscle_fiber_length_fin. simpl. lra.
  - simpl l_0. simpl phi_0. simpl l_t.
    pose proof (sin_pow2_bound 0.2) as [Hs0 _].
    assert (Hs1 : sin 0.2 ^ 2 < 0.04).
    { assert (Hp : 0 < sin 0.2).
      { apply sin_gt_0; [lra|]. pose proof PI2_1. lra. }
      pose proof (sin_lt_x 0.2). nra. }
    assert (Hd : (l_mt - 0.25) ^ 2 <= 0.0004) by nra.
    pose proof (pow2_ge_0 (l_mt - 0.25)) as Hd0.
    assert (Hb : 0 <= sqrt ((0.05 * sin 0.2) ^ 2 + (l_mt - 0.25) ^ 2) < 0.0225).
    { split; [apply sqrt_pos|].
      rewrite <- (sqrt_pow2 0.0225) by lra. apply sqrt_lt_1_alt.
      rewrite Rpow_mult_distr. split; lra. }
    lra.
Qed.

(** X15. Wherever the normalised length is strictly between -5 and 0.998
    the passive force-length value is negative, so a muscle with a positive
    [F_0] gets a negative passive force there. *)
Theorem passive_force_negative_below_optimum
        (self : Hill_type_muscle) (l_mt l_hat : R) :
  cal_normalized_muscle_fiber_length self (Fin l_mt) = Fin l_hat ->
  -5 < l_hat < 0.998 ->
  0 < F_0 self ->
  exists f_pm F_P : R,
    get_passive_force_length_value self (Fin l_mt) = Ret (Fin f_pm)
    /\ cal_passive_muscle_force self (Fin l_mt) = Ret (Fin F_P)
    /\ f_pm < 0 /\ F_P < 0.
Proof.
  intros Hn Hr HF.
  assert (Hf : get_passive_force_length_value self (Fin l_mt)
               = Ret (Fin (passive_curve_value l_hat)))
    by (apply get_passive_force_length_value_in_domain; [exact Hn | lra]).
  eexists _, _. split; [exact Hf|].
  split; [apply cal_passive_muscle_force_fin, Hf|].
  pose proof (passive_curve_value_below_zero l_hat Hr). split; nra.
Qed.

Lemma passive_force_negative_below_optimum_witness :
  exists l_hat f_pm F_P : R,
    cal_normalized_muscle_fiber_length default_muscle (Fin 0.27) = Fin l_hat
    /\ get_passive_force_length_value default_muscle (Fin 0.27) = Ret (Fin f_pm)
    /\ cal_passive_muscle_force default_muscle (Fin 0.27) = Ret (Fin F_P)
    /\ f_pm < 0 /\ F_P < 0.
Proof.
  destruct (default_muscle_normalized_length_short 0.27) as (l_hat & Hn & Hr);
    [lra|].
  exists l_hat.
  destruct (passive_force_negative_below_optimum default_muscle 0.27 l_hat)
    as (f_pm & F_P & H); [exact Hn | lra | simpl; lra |].
  exists f_pm, F_P. split; [exact Hn | exact H].
Defined.

(** X16. Wherever the normalised length is strictly between 1.602 and 5
    the passive force-length value is above 2, so a muscle with a positive
    [F_0] gets a passive force above [2 * F_0] there. *)
Theorem passive_force_above_plateau
        (self : Hill_type_muscle) (l_mt l_hat : R) :
  cal_normalized_muscle_fiber_length self (Fin l_mt) = Fin l_hat ->
  1.602 < l_hat < 5 ->
  0 < F_0 self ->
  exists f_pm F_P : R,
    get_passive_force_length_value self (Fin l_mt) = Ret (Fin f_pm)
    /\ cal_passive_muscle_force self (Fin l_mt) = Ret (Fin F_P)
    /\ 2 < f_pm /\ 2 * F_0 self < F_P.
Proof.
  intros Hn Hr HF.
  assert (Hf : get_passive_force_length_value self (Fin l_mt)
               = Ret (Fin (passive_curve_value l_hat)))
    by (apply get_passive_force_length_value_in_domain; [exact Hn | lra]).
  eexists _, _. split; [exact Hf|].
  split; [apply cal_passive_muscle_force_fin, Hf|].
  pose proof (passive_curve_value_above_two l_hat Hr). split; nra.
Qed.

Lemma passive_force_above_plateau_witness :
  exists l_hat f_pm F_P : R,
    cal_normalized_muscle_fiber_length default_muscle (Fin 0.34) = Fin l_hat
    /\ get_passive_force_length_value default_muscle (Fin 0.34) = Ret (Fin f_pm)
    /\ cal_passive_muscle_force default_muscle (Fin 0.34) = Ret (Fin F_P)
    /\ 2 < f_pm /\ 2 * F_0 default_muscle < F_P.
Proof.
  destruct default_muscle_normalized_length_034 as (l_hat & Hn & Hr).
  exists l_hat.
  destruct (passive_force_above_plateau default_muscle 0.34 l_hat)
    as (f_pm & F_P & H); [exact Hn | lra | simpl; lra |].
  exists f_pm, F_P. split; [exact Hn | exact H].
Defined.

(** X17. The active force-length value is negative wherever the normalised
    length is strictly between 0 and 0.401 or strictly between 1.621 and
    2.2, and positive strictly between 2.2 and 5; with a positive [F_0], a
    non-zero shape factor and a positive excitation the active force has
    the same sign. *)
Theorem active_force_sign_on_outer_pieces
        (self : Hill_type_muscle) (l_mt l_hat u : R) :
  cal_normalized_muscle_fiber_length self (Fin l_mt) = Fin l_hat ->
  0 < l_hat < 0.401 \/ 1.621 < l_hat < 2.2 \/ 2.2 < l_hat < 5 ->
  0 < F_0 self -> A self <> 0 -> 0 < u ->
  exists f_am F_A : R,
    get_active_force_length_value self (Fin l_mt) = Ret (Fin f_am)
    /\ cal_active_muscle_force self (Fin l_mt) (Fin u) = Ret (Fin F_A)
    /\ (0 < l_hat < 0.401 \/ 1.621 < l_hat < 2.2 -> f_am < 0 /\ F_A < 0)
    /\ (2.2 < l_hat < 5 -> 0 < f_am /\ 0 < F_A).
Proof.
  intros Hn Hr HF Ha Hu.
  assert (Hf : get_active_force_length_value self (Fin l_mt)
               = Ret (Fin (active_curve_value l_hat)))
    by (apply get_active_force_length_value_in_domain; [exact Hn | lra]).
  assert (Hact : 0 < activation_formula (A self) u).
  { rewrite <- (activation_formula_0 (A self)).
    apply activation_formula_strict; assumption. }
  eexists _, _. split; [exact Hf|].
  split; [apply cal_active_muscle_force_fin; eassumption|].
  split.
  - intros Hneg.
    assert (Hv : active_curve_value l_hat < 0).
    { destruct Hneg as [H|H];
        [apply active_curve_value_low_dip | apply active_curve_value_negative];
        exact H. }
    split; [exact Hv|].
    assert (active_curve_value l_hat * F_0 self < 0) by nra. nra.
  - intros Hpos.
    pose proof (active_curve_value_tail_positive l_hat Hpos) as Hv.
    split; [exact Hv|].
    assert (0 < active_curve_value l_hat * F_0 self) by nra. nra.
Qed.

Lemma active_force_sign_on_outer_pieces_witness :
  exists l_hat f_am F_A : R,
    cal_normalized_muscle_fiber_length default_muscle (Fin 0.34) = Fin l_hat
    /\ get_active_force_length_value default_muscle (Fin 0.34) = Ret (Fin f_am)
    /\ cal_active_muscle_force default_muscle (Fin 0.34) (Fin 1) = Ret (Fin F_A)
    /\ (0 < l_hat < 0.401 \/ 1.621 < l_hat < 2.2 -> f_am < 0 /\ F_A < 0)
    /\ (2.2 < l_hat < 5 -> 0 < f_am /\ 0 < F_A).
Proof.
  destruct default_muscle_normalized_length_034 as (l_hat & Hn & Hr).
  exists l_hat.
  destruct (active_force_sign_on_outer_pieces default_muscle 0.34 l_hat 1)
    as (f_am & F_A & H); [exact Hn | lra | simpl; lra | simpl; lra | lra |].
  exists f_am, F_A. split; [exact Hn | exact H].
Defined.

(** ** Bounding a cubic piece on an interval *)

Lemma peval_pshift (a : Q) (h : R) : forall p,
  peval (pshift p a) h = peval p (Q2R a + h).
Proof.
  induction p as [|c p IH]; [reflexivity|].
  cbn [pshift]. rewrite peval_padd, peval_pmul, IH. cbn [peval].
  rewrite RMicromega.Q2R_1. ring.
Qed.

Lemma Q2R_qmin a b : Q2R (qmin a b) <= Q2R a /\ Q2R (qmin a b) <= Q2R b.
Proof.
  unfold qmin. rewrite <- Rleb_Q2R. unfold Rleb.
  destruct (Rle_dec (Q2R a) (Q2R b)); lra.
Qed.

Lemma Q2R_qmax a b : Q2R a <= Q2R (qmax a b) /\ Q2R b <= Q2R (qmax a b).
Proof.
  unfold qmax. rewrite <- Rleb_Q2R. unfold Rleb.
  destruct (Rle_dec (Q2R a) (Q2R b)); lra.
Qed.

Lemma hbounds_sound (w : Q) (h : R) :
  0 <= h <= Q2R w ->
  forall p, Q2R (fst (hbounds p w)) <= peval p h <= Q2R (snd (hbounds p w)).
Proof.
  intros [Hh0 Hhw]. induction p as [|c p IH].
  - simpl. rewrite RMicromega.Q2R_0. lra.
  - cbn [hbounds peval]. destruct (hbounds p w) as [L U]. cbn [fst snd] in *.
    rewrite !Q2R_Qred, !Q2R_plus.
    destruct (Q2R_qmin 0 (w * L)) as [Hm0 Hm1].
    destruct (Q2R_qmax 0 (w * U)) as [HM0 HM1].
    rewrite Q2R_mult in Hm1, HM1. rewrite RMicromega.Q2R_0 in Hm0, HM0.
    destruct IH as [IHl IHu].
    split.
    + assert (Q2R (qmin 0 (w * L)) <= h * peval p h); [|lra].
      destruct (Rle_dec 0 (peval p h)) as [Hp|Hp].
      * assert (0 <= h * peval p h) by (apply Rmult_le_pos; assumption). lra.
      * assert (Q2R w * Q2R L <= h * peval p h) by nra. lra.
    + assert (h * peval p h <= Q2R (qmax 0 (w * U))); [|lra].
      destruct (Rle_dec (peval p h) 0) as [Hp|Hp].
      * assert (h * peval p h <= 0) by nra. lra.
      * assert (h * peval p h <= Q2R w * Q2R U) by nra. lra.
Qed.

Lemma pbounds_sound (p : poly) (lo w : Q) (x : R) :
  Q2R lo <= x <= Q2R lo + Q2R w ->
  Q2R (fst (pbounds p lo w)) <= peval p x <= Q2R (snd (pbounds p lo w)).
Proof.
  intros [H1 H2]. unfold pbounds.
  assert (E : peval p x = peval (pshift p lo) (x - Q2R lo))
    by (rewrite peval_pshift; f_equal; ring).
  rewrite E. apply hbounds_sound. lra.
Qed.

Lemma pbounds_steps_sound (p : poly) (w : Q) (x : R) :
  0 <= Q2R w ->
  forall (n : nat) (lo : Q),
  Q2R lo <= x <= Q2R lo + INR n * Q2R w ->
  Q2R (fst (pbounds_steps p lo w n)) <= peval p x
  <= Q2R (snd (pbounds_steps p lo w n)).
Proof.
  intros Hw. induction n as [|n IH]; intros lo Hx.
  - cbn [pbounds_steps]. apply pbounds_sound.
    simpl in Hx. rewrite RMicromega.Q2R_0. lra.
  - cbn [pbounds_steps].
    pose proof (pbounds_sound p lo w x) as Hfirst.
    destruct (pbounds p lo w) as [L U]. cbn [fst snd] in Hfirst.
    destruct n as [|n'].
    + cbn [fst snd]. apply Hfirst. simpl in Hx. lra.
    + specialize (IH (Qred (lo + w))).
      destruct (pbounds_steps p (Qred (lo + w)) w (S n')) as [L' U'].
      cbn [fst snd] in *.
      destruct (Q2R_qmin L L'). destruct (Q2R_qmax U U').
      destruct (Rle_dec x (Q2R lo + Q2R w)) as [Hin|Hout].
      * assert (Q2R L <= peval p x <= Q2R U) by (apply Hfirst; lra). lra.
      * assert (Q2R L' <= peval p x <= Q2R U').
        { apply IH. rewrite Q2R_Qred, Q2R_plus.
          rewrite S_INR in Hx. lra. }
        lra.
Qed.

Lemma peval_pflip (h : R) : forall p, peval (pflip p) h = peval p (- h).
Proof.
  induction p as [|c p IH]; [reflexivity|].
  cbn [pflip peval]. rewrite peval_pscale, IH.
  replace (Q2R (-1)) with (-1) by (unfold Q2R; simpl; lra). ring.
Qed.

Lemma Q2R_of_nat (n : nat) : Q2R (inject_Z (Z.of_nat n)) = INR n.
Proof.
  unfold Q2R, inject_Z. cbn [Qnum Qden]. rewrite <- INR_IZR_INZ.
  change (IZR (Z.pos 1)) with 1. field.
Qed.

Lemma steps_span (lo hi : Q) (n : nat) :
  n <> O ->
  INR n * Q2R (Qred ((hi - lo) / inject_Z (Z.of_nat n))) = Q2R hi - Q2R lo.
Proof.
  intros Hn.
  assert (HnR : INR n <> 0) by (apply not_0_INR, Hn).
  rewrite Q2R_Qred, Q2R_div, Q2R_minus, Q2R_of_nat.
  - field. exact HnR.
  - intros Hz. apply Qeq_eqR in Hz.
    rewrite Q2R_of_nat, RMicromega.Q2R_0 in Hz. contradiction.
Qed.

Lemma steps_width_nonneg (lo hi : Q) (n : nat) :
  n <> O -> Q2R lo <= Q2R hi ->
  0 <= Q2R (Qred ((hi - lo) / inject_Z (Z.of_nat n))).
Proof.
  intros Hn Hle. pose proof (steps_span lo hi n Hn) as Hspan.
  assert (HnR : 0 < INR n) by (apply lt_0_INR; lia).
  nra.
Qed.

Lemma segment_sound (f : interp1d_obj) (s : segment) (x : R) :
  segment_valid f s = true ->
  Q2R (seg_lo s) <= x < Q2R (seg_hi s) ->
  Q2R (fst (segment_bounds f s)) <= BSpline_call (i_spline f) x
  <= Q2R (snd (segment_bounds f s)).
Proof.
  unfold segment_valid. intros Hv [Hlo Hhi].
  repeat (apply andb_true_iff in Hv as [Hv ?]).
  match goal with H : negb _ = true |- _ =>
    apply negb_true_iff, Nat.eqb_neq in H; rename H into Hsteps end.
  match goal with H : Qle_bool (seg_hi s) _ = true |- _ =>
    apply Qle_bool_iff, Qle_Rle in H; rename H into Hknot end.
  match goal with H : Nat.ltb _ _ = true |- _ =>
    apply Nat.ltb_lt in H; rename H into Hlt end.
  match goal with H : forallb _ _ = true |- _ => rename H into Hbelow end.
  apply Qle_bool_iff, Qle_Rle in Hv.
  rewrite (curve_on_piece f (seg_piece s) x);
    [| exact Hlt | apply (all_below (seg_lo s)); assumption | lra].
  unfold segment_bounds. destruct (seg_back s).
  - assert (E : peval (curve_piece f (seg_piece s)) x
                = peval (pflip (pshift (curve_piece f (seg_piece s)) (seg_hi s)))
                        (Q2R (seg_hi s) - x)).
    { rewrite peval_pflip, peval_pshift. f_equal. ring. }
    rewrite E. apply hbounds_sound. rewrite Q2R_minus. lra.
  - apply pbounds_steps_sound.
    + apply steps_width_nonneg; assumption.
    + rewrite steps_span by exact Hsteps. lra.
Qed.

Lemma covers_sound (f : interp1d_obj) (L U : Q) (x : R) :
  forall (segs : list segment) (a b : Q),
  covers f segs a b L U = true ->
  Q2R a <= x < Q2R b ->
  Q2R L <= BSpline_call (i_spline f) x <= Q2R U.
Proof.
  induction segs as [|s rest IH]; intros a b Hc [Ha Hb]; [discriminate|].
  cbn [covers] in Hc.
  pose proof (segment_sound f s x) as Hs.
  destruct (segment_bounds f s) as [l u]. cbn [fst snd] in Hs.
  apply andb_true_iff in Hc as [Hc Hrest].
  apply andb_true_iff in Hc as [Hc HU].
  apply andb_true_iff in Hc as [Hc HL].
  apply andb_true_iff in Hc as [Hvalid Hstart].
  apply Qeq_bool_iff, Qeq_eqR in Hstart.
  apply Qle_bool_iff, Qle_Rle in HL. apply Qle_bool_iff, Qle_Rle in HU.
  destruct (Rlt_dec x (Q2R (seg_hi s))) as [Hin|Hout].
  - assert (Q2R (seg_lo s) <= x < Q2R (seg_hi s)) as Hx by lra.
    specialize (Hs Hvalid Hx). lra.
  - destruct rest as [|s' rest'].
    + apply Qeq_bool_iff, Qeq_eqR in Hrest. lra.
    + apply (IH (seg_hi s) b Hrest). lra.
Qed.

Lemma last_piece_within_sound (f : interp1d_obj) (lo hi : Q) (n : nat)
      (L U : Q) (x : R) :
  last_piece_within f lo hi n L U = true ->
  Q2R lo <= x <= Q2R hi ->
  Q2R L <= BSpline_call (i_spline f) x <= Q2R U.
Proof.
  unfold last_piece_within. intros Hv [Hlo Hhi].
  pose proof (pbounds_steps_sound
                (curve_piece f (length (interior_knots (bs_t (i_spline f))
                                                       (bs_k (i_spline f)))))
                (Qred ((hi - lo) / inject_Z (Z.of_nat n))) x) as Hb.
  destruct (pbounds_steps _ lo _ n) as [l u] eqn:E.
  apply andb_true_iff in Hv as [Hv HU].
  apply andb_true_iff in Hv as [Hv HL].
  apply andb_true_iff in Hv as [Hv Hn].
  apply andb_true_iff in Hv as [Hbelow Hle].
  apply negb_true_iff, Nat.eqb_neq in Hn.
  apply Qle_bool_iff, Qle_Rle in HL. apply Qle_bool_iff, Qle_Rle in HU.
  apply Qle_bool_iff, Qle_Rle in Hle.
  rewrite (curve_on_last_piece f x)
    by (apply (all_below lo); assumption).
  specialize (Hb (steps_width_nonneg lo hi n Hn Hle) n lo).
  rewrite E in Hb. cbn [fst snd] in Hb.
  rewrite steps_span in Hb by exact Hn.
  specialize (Hb ltac:(lra)). lra.
Qed.

(** ** The range of the two curves *)

Lemma active_curve_value_low (x : R) :
  0 <= x < 0.4035 -> -0.0002 <= active_curve_value x <= 0.0001.
Proof.
  intros Hx.
  pose proof (covers_sound active_curve (-0.0002) 0.0001 x
                active_low_segments 0 0.4035
                ltac:(vm_compute; reflexivity)) as Hc.
  rewrite RMicromega.Q2R_0 in Hc. specialize (Hc Hx).
  replace (Q2R (-0.0002)) with (-0.0002) in Hc by (unfold Q2R; simpl; lra).
  exact Hc.
Qed.

Lemma active_curve_value_middle (x : R) :
  0.4035 <= x < 1.61875 -> 0 <= active_curve_value x <= 1.002.
Proof.
  intros Hx.
  pose proof (covers_sound active_curve 0 1.002 x
                active_middle_segments 0.4035 1.61875
                ltac:(vm_compute; reflexivity)) as Hc.
  rewrite RMicromega.Q2R_0 in Hc. exact (Hc Hx).
Qed.

Lemma active_curve_value_high (x : R) :
  1.61875 <= x < 1.621 -> -0.0002 <= active_curve_value x <= 0.0001.
Proof.
  intros Hx.
  pose proof (covers_sound active_curve (-0.0002) 0.0001 x
                active_high_segments 1.61875 1.621
                ltac:(vm_compute; reflexivity)) as Hc.
  specialize (Hc Hx).
  replace (Q2R (-0.0002)) with (-0.0002) in Hc by (unfold Q2R; simpl; lra).
  exact Hc.
Qed.

Lemma active_curve_value_tail (x : R) :
  1.621 <= x <= 5 -> -0.0002 <= active_curve_value x <= 0.003.
Proof.
  intros Hx.
  pose proof (last_piece_within_sound active_curve 1.621 5 16
                (-0.0002) 0.003 x ltac:(vm_compute; reflexivity)) as Hc.
  replace (Q2R 5) with 5 in Hc by (unfold Q2R; simpl; lra).
  specialize (Hc Hx).
  replace (Q2R (-0.0002)) with (-0.0002) in Hc by (unfold Q2R; simpl; lra).
  exact Hc.
Qed.

Lemma active_curve_value_range (x : R) :
  0 <= x <= 5 -> -0.0002 <= active_curve_value x <= 1.002.
Proof.
  intros [H0 H5].
  destruct (Rlt_dec x 0.4035) as [H1|H1].
  { pose proof (active_curve_value_low x). lra. }
  destruct (Rlt_dec x 1.61875) as [H2|H2].
  { pose proof (active_curve_value_middle x). lra. }
  destruct (Rlt_dec x 1.621) as [H3|H3].
  { pose proof (active_curve_value_high x). lra. }
  pose proof (active_curve_value_tail x). lra.
Qed.

Lemma active_curve_value_working_ends :
  active_curve_value 0.4035 = 0 /\ active_curve_value 1.61875 = 0.
Proof.
  unfold active_curve_value, BSpline_call.
  rewrite !evaluate_spline_Q2R, <- RMicromega.Q2R_0.
  split; apply Qeq_eqR; vm_compute; reflexivity.
Qed.

Lemma active_curve_value_nonneg (x : R) :
  0.4035 <= x <= 1.61875 -> 0 <= active_curve_value x.
Proof.
  intros [H0 H1]. destruct (Rlt_dec x 1.61875) as [Hlt|Hge].
  - pose proof (active_curve_value_middle x). lra.
  - assert (Hx : x = 1.61875) by lra. subst x.
    destruct active_curve_value_working_ends as [_ ->]. lra.
Qed.

Lemma passive_curve_value_range (x : R) :
  1 <= x <= 5 -> 0 <= passive_curve_value x <= 54.
Proof.
  intros [H0 H5]. unfold passive_curve_value.
  assert (E54 : Q2R 54 = 54) by (unfold Q2R; simpl; lra).
  assert (E1 : Q2R 1 = 1) by (unfold Q2R; simpl; lra).
  assert (E5 : Q2R 5 = 5) by (unfold Q2R; simpl; lra).
  destruct (Rlt_dec x 1.601) as [Hlt|Hge].
  - pose proof (covers_sound passive_curve 0 54 x
                  passive_segments 1 1.601) as Hc.
    rewrite RMicromega.Q2R_0, E54, E1 in Hc.
    apply Hc; [vm_compute; reflexivity | lra].
  - pose proof (last_piece_within_sound passive_curve 1.601 5 16 0 54 x) as Hc.
    rewrite RMicromega.Q2R_0, E54, E5 in Hc.
    apply Hc; [vm_compute; reflexivity | lra].
Qed.

Lemma normalized_length_nonneg self (l_mt l_hat : R) :
  0 < l_0 self ->
  cal_normalized_muscle_fiber_length self (Fin l_mt) = Fin l_hat ->
  0 <= l_hat.
Proof.
  intros Hl0 Hn.
  rewrite cal_normalized_muscle_fiber_length_fin in Hn by lra.
  injection Hn as <-.
  apply Rmult_le_pos; [apply sqrt_pos|].
  left. apply Rinv_0_lt_compat, Hl0.
Qed.

(** X18. For a positive optimal fibre length and [l_mt] in the curve
    domain, the active force-length value lies between -0.0002 and 1.002;
    with [F_0 >= 0], a non-zero shape factor and an excitation in [0, 1]
    the active force lies between [-0.0002 * F_0] and [1.002 * F_0]. *)
Theorem active_force_range (self : Hill_type_muscle) (l_mt u : R) :
  0 < l_0 self ->
  in_curve_domain self l_mt ->
  0 <= F_0 self -> A self <> 0 -> 0 <= u <= 1 ->
  exists f_am F_A : R,
    get_active_force_length_value self (Fin l_mt) = Ret (Fin f_am)
    /\ cal_active_muscle_force self (Fin l_mt) (Fin u) = Ret (Fin F_A)
    /\ -0.0002 <= f_am <= 1.002
    /\ -0.0002 * F_0 self <= F_A <= 1.002 * F_0 self.
Proof.
  intros Hl0 (l_hat & Hn & Hr) HF Ha Hu.
  pose proof (normalized_length_nonneg self l_mt l_hat Hl0 Hn) as Hpos.
  pose proof (get_active_force_length_value_in_domain self l_mt l_hat Hn Hr) as Hf.
  exists (active_curve_value l_hat),
         (active_curve_value l_hat * F_0 self * activation_formula (A self) u).
  split; [exact Hf|].
  split; [apply cal_active_muscle_force_fin; assumption|].
  assert (Hv : -0.0002 <= active_curve_value l_hat <= 1.002)
    by (apply active_curve_value_range; lra).
  pose proof (activation_formula_unit (A self) u Ha Hu) as Hact.
  split; [exact Hv|].
  set (v := active_curve_value l_hat) in *.
  set (a := activation_formula (A self) u) in *.
  destruct Hv as [Hv1 Hv2]. destruct Hact as [Ha0 Ha1].
  assert (H1 : 0 <= F_0 self * a) by (apply Rmult_le_pos; lra).
  assert (H2 : 0 <= F_0 self * (1 - a)) by (apply Rmult_le_pos; lra).
  assert (H3 : 0 <= (v + 0.0002) * (F_0 self * a)) by (apply Rmult_le_pos; lra).
  assert (H4 : 0 <= (1.002 - v) * (F_0 self * a)) by (apply Rmult_le_pos; lra).
  split; nra.
Qed.

Lemma active_force_range_witness :
  exists f_am F_A : R,
    get_active_force_length_value default_muscle (Fin 0.30) = Ret (Fin f_am)
    /\ cal_active_muscle_force default_muscle (Fin 0.30) (Fin 0.5) = Ret (Fin F_A)
    /\ -0.0002 <= f_am <= 1.002
    /\ -0.0002 * F_0 default_muscle <= F_A <= 1.002 * F_0 default_muscle.
Proof.
  apply (active_force_range default_muscle 0.30 0.5).
  - simpl. lra.
  - apply default_muscle_in_curve_domain. lra.
  - simpl. lra.
  - simpl. lra.
  - lra.
Defined.

(** X19. Wherever the normalised length is between 0.4035 and 1.61875 the
    active force-length value is not negative; so there, with [F_0 >= 0]
    and a non-zero shape factor, the active forces over a non-decreasing
    sequence of excitations are non-decreasing. *)
Theorem active_force_nonnegative_in_working_range
        (self : Hill_type_muscle) (l_mt l_hat : R) (us : list R) :
  cal_normalized_muscle_fiber_length self (Fin l_mt) = Fin l_hat ->
  0.4035 <= l_hat <= 1.61875 ->
  0 <= F_0 self -> A self <> 0 -> nondecreasing us ->
  exists (f_am : R) (Fs : list R),
    get_active_force_length_value self (Fin l_mt) = Ret (Fin f_am)
    /\ 0 <= f_am
    /\ cal_active_muscle_force_arr self (Fin l_mt) (map Fin us)
       = Ret (map Fin Fs)
    /\ active_forces self l_mt us Fs
    /\ nondecreasing Fs.
Proof.
  intros Hn Hr HF Ha Hus.
  assert (Hf : get_active_force_length_value self (Fin l_mt)
               = Ret (Fin (active_curve_value l_hat)))
    by (apply get_active_force_length_value_in_domain; [exact Hn | lra]).
  pose proof (active_curve_value_nonneg l_hat Hr) as Hv.
  exists (active_curve_value l_hat),
    (map (fun u => active_curve_value l_hat * F_0 self
                   * activation_formula (A self) u) us).
  split; [exact Hf|]. split; [exact Hv|].
  split; [apply cal_active_muscle_force_arr_fin; assumption|].
  split.
  - apply Forall2_map_r. intros u.
    apply cal_active_muscle_force_fin; assumption.
  - apply Sorted_map_monotone; [|exact Hus].
    intros a b Hab.
    apply Rmult_le_compat_l; [apply Rmult_le_pos; assumption|].
    apply activation_formula_le; assumption.
Qed.

(** The default muscle at the driver's first length, 0.30: the normalised
    length is between 1 and 1.02. *)
Lemma default_muscle_normalized_length_030 :
  exists l_hat : R,
    cal_normalized_muscle_fiber_length default_muscle (Fin 0.30) = Fin l_hat
    /\ 1 <= l_hat < 1.02.
Proof.
  eexists. split.
  - apply cal_normalized_muscle_fiber_length_fin. simpl. lra.
  - simpl l_0. simpl phi_0. simpl l_t.
    pose proof (sin_pow2_bound 0.2) as [Hs0 _].
    assert (Hs1 : sin 0.2 ^ 2 < 0.04).
    { assert (Hp : 0 < sin 0.2).
      { apply sin_gt_0; [lra|]. pose proof PI2_1. lra. }
      pose proof (sin_lt_x 0.2). nra. }
    assert (Hb : 0.05 <= sqrt ((0.05 * sin 0.2) ^ 2 + (0.30 - 0.25) ^ 2) < 0.051).
    { split.
      - rewrite <- (sqrt_pow2 0.05) at 1 by lra. apply sqrt_le_1_alt.
        rewrite Rpow_mult_distr. lra.
      - rewrite <- (sqrt_pow2 0.051) by lra. apply sqrt_lt_1_alt.
        rewrite Rpow_mult_distr. split; lra. }
    lra.
Qed.

Lemma active_force_nonnegative_in_working_range_witness :
  exists (l_hat f_am : R) (Fs : list R),
    cal_normalized_muscle_fiber_length default_muscle (Fin 0.30) = Fin l_hat
    /\ get_active_force_length_value default_muscle (Fin 0.30) = Ret (Fin f_am)
    /\ 0 <= f_am
    /\ cal_active_muscle_force_arr default_muscle (Fin 0.30)
         (map Fin (linspace01 200)) = Ret (map Fin Fs)
    /\ active_forces default_muscle 0.30 (linspace01 200) Fs
    /\ nondecreasing Fs.
Proof.
  destruct default_muscle_normalized_length_030 as (l_hat & Hn & Hr).
  exists l_hat.
  destruct (active_force_nonnegative_in_working_range default_muscle 0.30 l_hat
              (linspace01 200))
    as (f_am & Fs & H);
    [exact Hn | lra | simpl; lra | simpl; lra | apply linspace01_nondecreasing |].
  exists f_am, Fs. split; [exact Hn | exact H].
Defined.

(** X20. Wherever the normalised length is between 1 and 5 the passive
    force-length value lies between 0 and 54; with [F_0 >= 0] the passive
    force lies between 0 and [54 * F_0]. *)
Theorem passive_force_range_above_optimum
        (self : Hill_type_muscle) (l_mt l_hat : R) :
  cal_normalized_muscle_fiber_length self (Fin l_mt) = Fin l_hat ->
  1 <= l_hat <= 5 ->
  0 <= F_0 self ->
  exists f_pm F_P : R,
    get_passive_force_length_value self (Fin l_mt) = Ret (Fin f_pm)
    /\ cal_passive_muscle_force self (Fin l_mt) = Ret (Fin F_P)
    /\ 0 <= f_pm <= 54
    /\ 0 <= F_P <= 54 * F_0 self.
Proof.
  intros Hn Hr HF.
  assert (Hf : get_passive_force_length_value self (Fin l_mt)
               = Ret (Fin (passive_curve_value l_hat)))
    by (apply get_passive_force_length_value_in_domain; [exact Hn | lra]).
  pose proof (passive_curve_value_range l_hat Hr) as [Hv0 Hv1].
  eexists _, _. split; [exact Hf|].
  split; [apply cal_passive_muscle_force_fin, Hf|].
  split; [lra|]. split; nra.
Qed.

Lemma passive_force_range_above_optimum_witness :
  exists l_hat f_pm F_P : R,
    cal_normalized_muscle_fiber_length default_muscle (Fin 0.30) = Fin l_hat
    /\ get_passive_force_length_value default_muscle (Fin 0.30) = Ret (Fin f_pm)
    /\ cal_passive_muscle_force default_muscle (Fin 0.30) = Ret (Fin F_P)
    /\ 0 <= f_pm <= 54
    /\ 0 <= F_P <= 54 * F_0 default_muscle.
Proof.
  destruct default_muscle_normalized_length_030 as (l_hat & Hn & Hr).
  exists l_hat.
  destruct (passive_force_range_above_optimum default_muscle 0.30 l_hat)
    as (f_pm & F_P & H); [exact Hn | lra | simpl; lra |].
  exists f_pm, F_P. split; [exact Hn | exact H].
Defined.



(** ** Messages, plots and the driver *)

(** X21. [mes_active_muscle_force_value] and
    [mes_passive_muscle_force_value] print nothing and raise ValueError
    when the normalised length is outside the tabulated range; in the curve
    domain each prints exactly one line, built from the length and from the
    rounded force-length value, and returns. *)
Theorem mes_muscle_force_value_output
        (format_float : npfloat -> String.string)
        (np_round : npfloat -> nat -> npfloat)
        (self : Hill_type_muscle) (l_mt : R) :
  (out_of_curve_domain self l_mt ->
   mes_active_muscle_force_value format_float np_round self (Fin l_mt)
   = ([], Raise ValueError)
   /\ mes_passive_muscle_force_value format_float np_round self (Fin l_mt)
      = ([], Raise ValueError))
  /\ (in_curve_domain self l_mt ->
      exists f_am f_pm : R,
        get_active_force_length_value self (Fin l_mt) = Ret (Fin f_am)
        /\ get_passive_force_length_value self (Fin l_mt) = Ret (Fin f_pm)
        /\ mes_active_muscle_force_value format_float np_round self (Fin l_mt)
           = ([Printed
                 (String.append "Active Force-Length Value when l_mt = "
                    (String.append (format_float (Fin l_mt))
                       (String.append "m is "
                          (format_float (np_round (Fin f_am) 4%nat)))))],
              Ret tt)
        /\ mes_passive_muscle_force_value format_float np_round self (Fin l_mt)
           = ([Printed
                 (String.append "Passive Force-Length Value when l_mt = "
                    (String.append (format_float (Fin l_mt))
                       (String.append "m is "
                          (format_float (np_round (Fin f_pm) 4%nat)))))],
              Ret tt)).
Proof.
  unfold mes_active_muscle_force_value, mes_passive_muscle_force_value.
  split.
  - intros Hout.
    destruct (force_length_values_raise self (Fin l_mt) Hout) as [-> ->].
    split; reflexivity.
  - intros (l_hat & Hn & Hr).
    exists (active_curve_value l_hat), (passive_curve_value l_hat).
    rewrite (get_active_force_length_value_in_domain self l_mt l_hat Hn Hr).
    rewrite (get_passive_force_length_value_in_domain self l_mt l_hat Hn Hr).
    repeat split.
Qed.

Lemma mes_muscle_force_value_output_witness :
  (mes_active_muscle_force_value (fun _ => String.EmptyString) (fun x _ => x)
     default_muscle (Fin 1) = ([], Raise ValueError)
   /\ mes_passive_muscle_force_value (fun _ => String.EmptyString) (fun x _ => x)
        default_muscle (Fin 1) = ([], Raise ValueError))
  /\ exists f_am : R,
       get_active_force_length_value default_muscle (Fin 0.30) = Ret (Fin f_am).
Proof.
  split.
  - apply (proj1 (mes_muscle_force_value_output (fun _ => String.EmptyString)
                    (fun x _ => x) default_muscle 1)).
    unfold out_of_curve_domain.
    rewrite cal_normalized_muscle_fiber_length_fin by (simpl; lra).
    right. simpl l_0. simpl phi_0. simpl l_t.
    assert (Hb : 0.75 <= sqrt ((0.05 * sin 0.2) ^ 2 + (1 - 0.25) ^ 2)).
    { rewrite <- (sqrt_pow2 0.75) at 1 by lra. apply sqrt_le_1_alt.
      pose proof (pow2_ge_0 (0.05 * sin 0.2)). lra. }
    lra.
  - destruct (proj2 (mes_muscle_force_value_output (fun _ => String.EmptyString)
                       (fun x _ => x) default_muscle 0.30))
      as (f_am & f_pm & H & _).
    + apply default_muscle_in_curve_domain. lra.
    + exists f_am. exact H.
Defined.

Lemma linspace01_length (n : nat) : List.length (linspace01 n) = n.
Proof. unfold linspace01. rewrite length_map. apply length_seq. Qed.

Lemma linspace01_unit (n : nat) : Forall (fun u => 0 <= u <= 1) (linspace01 n).
Proof.
  unfold linspace01. apply Forall_forall. intros u Hin.
  apply in_map_iff in Hin as (i & <- & Hi). apply in_seq in Hi.
  destruct (n - 1)%nat as [|d] eqn:E.
  - simpl. unfold Rdiv. rewrite Rinv_0. lra.
  - assert (Hd : 0 < INR (S d)) by (apply lt_0_INR; lia).
    assert (Hi' : INR i <= INR (S d)) by (apply le_INR; lia).
    pose proof (pos_INR i) as Hi0.
    assert (Hinv : 0 < / INR (S d)) by (apply Rinv_0_lt_compat, Hd).
    unfold Rdiv. split.
    + apply Rmult_le_pos; lra.
    + replace 1 with (INR (S d) * / INR (S d)) by (field; lra).
      apply Rmult_le_compat_r; lra.
Qed.

Lemma sin_02_pow2 : 0 <= sin 0.2 ^ 2 < 0.04.
Proof.
  split; [apply pow2_ge_0|].
  assert (Hp : 0 < sin 0.2).
  { apply sin_gt_0; [lra|]. pose proof PI2_1. lra. }
  pose proof (sin_lt_x 0.2). nra.
Qed.

Lemma default_muscle_normalized_length_031 :
  exists l_hat : R,
    cal_normalized_muscle_fiber_length default_muscle (Fin 0.31) = Fin l_hat
    /\ 1.2 <= l_hat < 1.217.
Proof.
  eexists. split.
  - apply cal_normalized_muscle_fiber_length_fin. simpl. lra.
  - simpl l_0. simpl phi_0. simpl l_t.
    pose proof sin_02_pow2 as [Hs0 Hs1].
    assert (Hb : 0.06 <= sqrt ((0.05 * sin 0.2) ^ 2 + (0.31 - 0.25) ^ 2) < 0.06085).
    { split.
      - rewrite <- (sqrt_pow2 0.06) at 1 by lra. apply sqrt_le_1_alt.
        rewrite Rpow_mult_distr. lra.
      - rewrite <- (sqrt_pow2 0.06085) by lra. apply sqrt_lt_1_alt.
        rewrite Rpow_mult_distr. split; lra. }
    lra.
Qed.

Lemma default_muscle_normalized_length_032 :
  exists l_hat : R,
    cal_normalized_muscle_fiber_length default_muscle (Fin 0.32) = Fin l_hat
    /\ 1.4 <= l_hat < 1.415.
Proof.
  eexists. split.
  - apply cal_normalized_muscle_fiber_length_fin. simpl. lra.
  - simpl l_0. simpl phi_0. simpl l_t.
    pose proof sin_02_pow2 as [Hs0 Hs1].
    assert (Hb : 0.07 <= sqrt ((0.05 * sin 0.2) ^ 2 + (0.32 - 0.25) ^ 2) < 0.07075).
    { split.
      - rewrite <- (sqrt_pow2 0.07) at 1 by lra. apply sqrt_le_1_alt.
        rewrite Rpow_mult_distr. lra.
      - rewrite <- (sqrt_pow2 0.07075) by lra. apply sqrt_lt_1_alt.
        rewrite Rpow_mult_distr. split; lra. }
    lra.
Qed.

(** Bounds of a curve on a stretch of one knot interval. *)
Lemma curve_within (f : interp1d_obj) (i : nat) (lo hi L U : Q) (x : R) :
  covers f [forward i lo hi 1] lo hi L U = true ->
  Q2R lo <= x < Q2R hi ->
  Q2R L <= BSpline_call (i_spline f) x <= Q2R U.
Proof. apply covers_sound. Qed.

(** The force-length values the driver meets. *)
Lemma driver_force_length_values (l_mt : R) :
  l_mt = 0.30 \/ l_mt = 0.31 \/ l_mt = 0.32 ->
  exists f_am f_pm : R,
    get_active_force_length_value default_muscle (Fin l_mt) = Ret (Fin f_am)
    /\ get_passive_force_length_value default_muscle (Fin l_mt) = Ret (Fin f_pm)
    /\ 0 <= f_am /\ 0 <= f_pm /\ f_am + f_pm <= 1.01.
Proof.
  assert (E0 : Q2R 0 = 0) by apply RMicromega.Q2R_0.
  assert (E1 : Q2R 1 = 1) by (unfold Q2R; simpl; lra).
  intros [-> | [-> | ->]].
  - destruct default_muscle_normalized_length_030 as (l_hat & Hn & Hr).
    exists (active_curve_value l_hat), (passive_curve_value l_hat).
    split; [apply get_active_force_length_value_in_domain; [exact Hn|lra]|].
    split; [apply get_passive_force_length_value_in_domain; [exact Hn|lra]|].
    pose proof (active_curve_value_middle l_hat ltac:(lra)) as Ha.
    pose proof (curve_within passive_curve 2 1 1.02 0 0.002 l_hat
                  ltac:(vm_compute; reflexivity)) as Hp.
    rewrite E0, E1 in Hp. unfold passive_curve_value.
    specialize (Hp ltac:(lra)). lra.
  - destruct default_muscle_normalized_length_031 as (l_hat & Hn & Hr).
    exists (active_curve_value l_hat), (passive_curve_value l_hat).
    split; [apply get_active_force_length_value_in_domain; [exact Hn|lra]|].
    split; [apply get_passive_force_length_value_in_domain; [exact Hn|lra]|].
    pose proof (curve_within active_curve 8 1.2 1.217 0 0.82 l_hat
                  ltac:(vm_compute; reflexivity)) as Ha.
    pose proof (curve_within passive_curve 4 1.2 1.217 0 0.15 l_hat
                  ltac:(vm_compute; reflexivity)) as Hp.
    rewrite E0 in Ha, Hp. unfold active_curve_value, passive_curve_value.
    specialize (Ha ltac:(lra)). specialize (Hp ltac:(lra)). lra.
  - destruct default_muscle_normalized_length_032 as (l_hat & Hn & Hr).
    exists (active_curve_value l_hat), (passive_curve_value l_hat).
    split; [apply get_active_force_length_value_in_domain; [exact Hn|lra]|].
    split; [apply get_passive_force_length_value_in_domain; [exact Hn|lra]|].
    pose proof (curve_within active_curve 9 1.4 1.415 0 0.35 l_hat
                  ltac:(vm_compute; reflexivity)) as Ha.
    pose proof (curve_within passive_curve 6 1.4 1.415 0 0.62 l_hat
                  ltac:(vm_compute; reflexivity)) as Hp.
    rewrite E0 in Ha, Hp. unfold active_curve_value, passive_curve_value.
    specialize (Ha ltac:(lra)). specialize (Hp ltac:(lra)). lra.
Qed.

Lemma ax_plot_same_length (fig : figure) (x y : list npfloat) fmt :
  List.length x = List.length y ->
  ax_plot fig x y fmt
  = Ret {| fig_title := fig_title fig; fig_xlabel := fig_xlabel fig;
           fig_ylabel := fig_ylabel fig; fig_legend := fig_legend fig;
           fig_xlim := fig_xlim fig; fig_ylim := fig_ylim fig;
           fig_lines := fig_lines fig ++ [(x, y, fmt)] |}.
Proof.
  intros Hlen. unfold ax_plot. rewrite Hlen, Nat.eqb_refl. reflexivity.
Qed.

Lemma Forall_map_R (P : R -> Prop) (g : R -> R) (l : list R) :
  (forall u, In u l -> P (g u)) -> Forall P (map g l).
Proof.
  intros H. apply Forall_forall. intros y Hin.
  apply in_map_iff in Hin as (u & <- & Hu). apply H, Hu.
Qed.

Lemma Forall2_map_both (g h : R -> R) (l : list R) :
  (forall u, In u l -> g u <= h u) -> Forall2 Rle (map g l) (map h l).
Proof.
  induction l as [|a l IH]; intros H; simpl; constructor.
  - apply H. left. reflexivity.
  - apply IH. intros u Hu. apply H. right. exact Hu.
Qed.

(** One pass of the driver's loop at a length whose two force-length values
    are not negative and add up to at most 3600 / F_0. *)
Lemma main_iteration_ok
      (format_float : npfloat -> String.string)
      (np_round : npfloat -> nat -> npfloat) (l_mt f_am f_pm : R) :
  get_active_force_length_value default_muscle (Fin l_mt) = Ret (Fin f_am) ->
  get_passive_force_length_value default_muscle (Fin l_mt) = Ret (Fin f_pm) ->
  0 <= f_am -> 0 <= f_pm -> f_am + f_pm <= 1.01 ->
  exists (m_a m_p : String.string) (fig : figure),
    main_iteration format_float np_round default_muscle
      (map Fin (linspace01 200)) (Fin l_mt)
    = ([Printed m_a; Printed m_p; Shown fig], Ret tt)
    /\ figure_ok fig.
Proof.
  intros Hfa Hfp Ha0 Hp0 Hsum.
  assert (HA : A default_muscle <> 0) by (simpl; lra).
  assert (HAneg : A default_muscle < 0) by (simpl; lra).
  set (us := linspace01 200).
  set (g := fun u => f_am * F_0 default_muscle
                     * activation_formula (A default_muscle) u).
  set (h := fun u => f_am * F_0 default_muscle
                     * activation_formula (A default_muscle)
                         (activation_formula (A default_muscle) u)
                     + f_pm * F_0 default_muscle).
  assert (Hunit : forall u, In u us ->
            0 <= activation_formula (A default_muscle) u <= 1
            /\ activation_formula (A default_muscle) u
               <= activation_formula (A default_muscle)
                    (activation_formula (A default_muscle) u) <= 1).
  { intros u Hu.
    pose proof (linspace01_unit 200) as Hall. rewrite Forall_forall in Hall.
    pose proof (activation_formula_unit _ u HA (Hall u Hu)) as H1.
    pose proof (activation_formula_unit _ _ HA H1) as H2.
    pose proof (activation_formula_above _ _ HAneg H1) as H3.
    split; [exact H1|]. split; [exact H3 | apply H2]. }
  unfold main_iteration, mes_active_muscle_force_value,
    mes_passive_muscle_force_value.
  rewrite Hfa, Hfp. unfold io_lift, print. cbn [io_bind app].
  rewrite (cal_active_muscle_force_arr_fin default_muscle l_mt f_am us HA Hfa).
  cbn [io_bind app].
  rewrite (cal_muscle_fiber_force_arr_fin default_muscle l_mt f_am f_pm us HA Hfa Hfp).
  cbn [io_bind app]. fold g. fold h.
  unfold plot_force, io_lift.
  rewrite ax_plot_same_length by (rewrite !length_map; reflexivity).
  cbn [io_bind app].
  rewrite ax_plot_same_length by (rewrite !length_map; reflexivity).
  cbn [io_bind app fig_title fig_xlabel fig_ylabel
       fig_legend fig_xlim fig_ylim fig_lines].
  eexists _, _, _. split; [reflexivity|].
  unfold figure_ok. cbn [fig_xlim fig_ylim fig_lines].
  split; [reflexivity|]. split; [reflexivity|].
  exists (map g us), (map h us).
  split; [reflexivity|].
  split; [rewrite length_map; apply linspace01_length|].
  split; [rewrite length_map; apply linspace01_length|].
  assert (HF : F_0 default_muscle = 3549) by reflexivity.
  assert (HfF : 0 <= f_am * F_0 default_muscle) by (rewrite HF; lra).
  split.
  { apply Sorted_map_monotone; [|apply linspace01_nondecreasing].
    intros a b Hab. unfold g. apply Rmult_le_compat_l; [exact HfF|].
    apply activation_formula_le; assumption. }
  split.
  { apply Sorted_map_monotone; [|apply linspace01_nondecreasing].
    intros a b Hab. unfold h.
    assert (activation_formula (A default_muscle)
              (activation_formula (A default_muscle) a)
            <= activation_formula (A default_muscle)
                 (activation_formula (A default_muscle) b)).
    { do 2 (apply activation_formula_le; [exact HA|]). exact Hab. }
    nra. }
  split.
  { apply Forall_map_R. intros u Hu. unfold g. rewrite HF.
    destruct (Hunit u Hu) as [[H0 H1] _].
    set (a := activation_formula (A default_muscle) u) in *.
    assert (0 <= f_am * a) by (apply Rmult_le_pos; lra).
    assert (0 <= f_am * (1 - a)) by (apply Rmult_le_pos; lra).
    split; nra. }
  split.
  { apply Forall_map_R. intros u Hu. unfold h. rewrite HF.
    destruct (Hunit u Hu) as [[H0 H1] [H2 H3]].
    set (aa := activation_formula (A default_muscle)
                 (activation_formula (A default_muscle) u)) in *.
    assert (0 <= aa) by lra.
    assert (0 <= f_am * aa) by (apply Rmult_le_pos; lra).
    assert (0 <= f_am * (1 - aa)) by (apply Rmult_le_pos; lra).
    split; nra. }
  apply Forall2_map_both. intros u Hu. unfold g, h. rewrite HF.
  destruct (Hunit u Hu) as [[H0 H1] [H2 H3]].
  assert (0 <= f_am * (activation_formula (A default_muscle)
                         (activation_formula (A default_muscle) u)
                       - activation_formula (A default_muscle) u))
    by (apply Rmult_le_pos; lra).
  nra.
Qed.

(** X22. With the default parameters the driver runs through: none of its
    three lengths leaves the curve domain and nothing is raised.  It prints
    two lines and shows one figure per length; in every figure the active
    and the total force over the 200 excitations are non-decreasing, the
    total force is never below the active force, and every plotted force
    lies inside the y-range [0, 3600] of the axes. *)
Theorem main_runs_and_plots_within_axes
        (format_float : npfloat -> String.string)
        (np_round : npfloat -> nat -> npfloat) :
  exists (a1 p1 a2 p2 a3 p3 : String.string) (fig1 fig2 fig3 : figure),
    main format_float np_round
    = ([Printed a1; Printed p1; Shown fig1;
        Printed a2; Printed p2; Shown fig2;
        Printed a3; Printed p3; Shown fig3], Ret tt)
    /\ figure_ok fig1 /\ figure_ok fig2 /\ figure_ok fig3.
Proof.
  destruct (driver_force_length_values 0.30) as (fa1 & fp1 & Ha1 & Hp1 & B1);
    [left; reflexivity|].
  destruct (driver_force_length_values 0.31) as (fa2 & fp2 & Ha2 & Hp2 & B2);
    [right; left; reflexivity|].
  destruct (driver_force_length_values 0.32) as (fa3 & fp3 & Ha3 & Hp3 & B3);
    [right; right; reflexivity|].
  destruct (main_iteration_ok format_float np_round 0.30 fa1 fp1 Ha1 Hp1)
    as (a1 & p1 & fig1 & E1 & Hok1); try apply B1.
  destruct (main_iteration_ok format_float np_round 0.31 fa2 fp2 Ha2 Hp2)
    as (a2 & p2 & fig2 & E2 & Hok2); try apply B2.
  destruct (main_iteration_ok format_float np_round 0.32 fa3 fp3 Ha3 Hp3)
    as (a3 & p3 & fig3 & E3 & Hok3); try apply B3.
  exists a1, p1, a2, p2, a3, p3, fig1, fig2, fig3.
  split; [|split; [exact Hok1 | split; [exact Hok2 | exact Hok3]]].
  unfold main. cbn [for_each]. rewrite E1, E2, E3. reflexivity.
Qed.
